(** * medal-count: the analytical core of [app.js]

    A shallow embedding of the three pure pieces of [app.js]:
    - [buildUnifiedMedalData]  (merging the Summer and Winter tables),
    - [calculateQuantileBreaks] and [getColorForMedalCount]
      (the colour classification),
    - [getOlympicsForYear]     (which games took place in a year).

    Modelling conventions.
    - A JS object used as a dictionary (year -> countries, country -> entry)
      is a [gmap string _]; its keys are plain data keys (years, ISO codes),
      none of them the name of a property of [Object.prototype].
    - Medal counts are integers ([Z]); all sums stay far below 2^53, where
      JS Number arithmetic on integers is exact.  The two other Number
      values the code can produce, [NaN] and [undefined], are explicit.
    - The only genuinely fractional computation, [length * 0.15] and its
      seven siblings, is evaluated with the IEEE-754 binary64 operations of
      [SpecFloat].
    - The module-level variables [medalData] and [quantileBreaks] are passed
      explicitly.

    The callers of the core are embedded as far as they compute values:
    [getCurrentMedalData], the fill colour built by [updateMapColors], the
    three texts of [updateInfoBar], the ticks of [updateLegend], the year
    index built in [init] and the season label of [showMedalPopup].  What
    they do to the map and to the page is not modelled. *)

From Stdlib Require Import ZArith Lia.
From Stdlib Require Floats.SpecFloat.
From stdpp Require Import gmap strings list sorting pretty.

Local Open Scope string_scope.
Local Open Scope nat_scope.
Local Open Scope list_scope.

(** ** Data model *)

(** One country's tally for one season of one year, as loaded from JSON.
    [display_name] is optional: [None] is an absent field ([undefined]). *)
Module Season.
Record entry := Entry {
  gold : Z;
  silver : Z;
  bronze : Z;
  historical : bool;
  display_name : option string
}.
End Season.

(** The object literal [{ gold: .., silver: .., bronze: .. }] stored under
    [seasons.summer] and [seasons.winter]. *)
Record tally := Tally { t_gold : Z; t_silver : Z; t_bronze : Z }.

Record breakdown := Breakdown { summer : tally; winter : tally }.

(** A unified entry.  The JS object has the optional properties [seasons]
    and [season]; an absent property is [None]. *)
Module Unified.
Record entry := Entry {
  gold : Z;
  silver : Z;
  bronze : Z;
  historical : bool;
  display_name : option string;
  seasons : option breakdown;
  season : option string
}.
End Unified.

Abbreviation SeasonYearTable := (gmap string (gmap string Season.entry)).
Abbreviation UnifiedYearTable := (gmap string (gmap string Unified.entry)).

(** ** JS truthiness and [||] on an optional string *)

(** [undefined] and the empty string are falsy, every other string is truthy. *)
Definition truthy (o : option string) : bool :=
  match o with
  | Some s => negb (String.eqb s "")
  | None => false
  end.

(** [a || b] *)
Definition js_or (a b : option string) : option string :=
  if truthy a then a else b.

(** ** buildUnifiedMedalData *)

Definition tally_of (e : Season.entry) : tally :=
  Tally (Season.gold e) (Season.silver e) (Season.bronze e).

(** The body of [allCountries.forEach]: [summer] and [winter] are the
    lookups [summerData[isoCode]] and [winterData[isoCode]]; an entry is an
    object, hence truthy exactly when it is there.  [None] means that no
    branch fires and nothing is assigned. *)
Definition unifyCountry (summer winter : option Season.entry)
  : option Unified.entry :=
  match summer, winter with
  | Some s, Some w =>
      Some (Unified.Entry
              (Season.gold s + Season.gold w)
              (Season.silver s + Season.silver w)
              (Season.bronze s + Season.bronze w)
              (Season.historical s || Season.historical w)
              (js_or (Season.display_name s) (Season.display_name w))
              (Some (Breakdown (tally_of s) (tally_of w)))
              None)
  | Some s, None =>
      Some (Unified.Entry
              (Season.gold s) (Season.silver s) (Season.bronze s)
              (Season.historical s) (Season.display_name s)
              None (Some "summer"))
  | None, Some w =>
      Some (Unified.Entry
              (Season.gold w) (Season.silver w) (Season.bronze w)
              (Season.historical w) (Season.display_name w)
              None (Some "winter"))
  | None, None => None
  end.

(** One step of a [forEach] that assigns [target[key] = f key] when [f]
    yields something. *)
Definition assign {V} (f : string → option V) (key : string)
    (target : gmap string V) : gmap string V :=
  match f key with
  | Some v => <[key := v]> target
  | None => target
  end.

(** [unified[year] = {}] followed by the loop over [allCountries]. *)
Definition unifyYear (summerData winterData : gmap string Season.entry)
  : gmap string Unified.entry :=
  set_fold
    (assign (λ isoCode,
       unifyCountry (summerData !! isoCode) (winterData !! isoCode)))
    ∅ (dom summerData ∪ dom winterData).

(** [summerMedals[year] || {}] *)
Definition yearData (medals : SeasonYearTable) (year : string)
  : gmap string Season.entry :=
  default ∅ (medals !! year).

Definition buildUnifiedMedalData (summerMedals winterMedals : SeasonYearTable)
  : UnifiedYearTable :=
  set_fold
    (assign (λ year,
       Some (unifyYear (yearData summerMedals year)
                       (yearData winterMedals year))))
    ∅ (dom summerMedals ∪ dom winterMedals).

(** ** Numbers

    The Number values that reach the classification code: an integer or
    [NaN] (what [Math.ceil(undefined)] yields). *)
Inductive number := Int (z : Z) | NaN.

(** What a caller may pass as [count]. *)
Inductive value := Num (n : number) | Null | Undefined.

Global Instance number_eq_dec : EqDecision number.
Proof. solve_decision. Defined.

(** [a <= b] on Numbers: false as soon as one side is [NaN]. *)
Definition js_leb (a b : number) : bool :=
  match a, b with
  | Int x, Int y => bool_decide (x ≤ y)%Z
  | _, _ => false
  end.

(** The order induced by the comparator [(a, b) => a - b]: [a] may stay in
    front of [b] when [a - b] is not positive; a [NaN] difference counts
    as [0]. *)
Definition cmp_le (a b : number) : Prop :=
  match a, b with
  | Int x, Int y => (x ≤ y)%Z
  | _, _ => True
  end.

Global Instance cmp_le_dec : RelDecision cmp_le.
Proof. intros [x|] [y|]; simpl; apply _. Defined.

(** ** COLOR_PALETTE *)
Module COLOR_PALETTE.
Definition noData : string := "#f0f0f0".
Definition colors : list string :=
  [ "#fff7ec"; "#fee8c8"; "#fdd49e"; "#fdbb84"; "#fc8d59";
    "#ef6548"; "#d7301f"; "#b30000"; "#7f0000" ].
End COLOR_PALETTE.

(** ** IEEE-754 binary64 for [length * fraction] *)
Module Double.
Import SpecFloat.

Definition prec : Z := 53.
Definition emax : Z := 1024.

(** An integer as a double (exact below 2^53). *)
Definition of_Z (z : Z) : spec_float := binary_normalize prec emax z 0 false.

Definition mul : spec_float → spec_float → spec_float := SFmul prec emax.

(** A decimal literal [p/100]: the double nearest to it, which is what
    the correctly rounded quotient of the two exact integers gives. *)
Definition percent (p : Z) : spec_float :=
  SFdiv prec emax (of_Z p) (of_Z 100).

(** [Math.floor] of a double, for use as an array index: [None] for
    [NaN] and the infinities, which index nothing. *)
Definition floor (x : spec_float) : option Z :=
  match x with
  | S754_zero _ => Some 0%Z
  | S754_finite s m e => Some (Z.shiftl (cond_Zopp s (Z.pos m)) e)
  | S754_infinity _ | S754_nan => None
  end.
End Double.

(** The eight literals [0.15 .. 0.99]. *)
Definition fractions : list SpecFloat.spec_float :=
  Eval vm_compute in
    Double.percent <$> [15; 35; 55; 70; 82; 91; 96; 99]%Z.

(** ** calculateQuantileBreaks *)

Definition totalMedals (country : Unified.entry) : Z :=
  (Unified.gold country + Unified.silver country + Unified.bronze country)%Z.

(** The two nested [Object.values(..).forEach] loops that push every
    positive total.  The order of the pushes is irrelevant: the array is
    sorted before it is read. *)
Definition collectMedalCounts (medalData : UnifiedYearTable) : list Z :=
  year ← (map_to_list medalData).*2;
  filter (λ total, 0 < total)%Z (totalMedals <$> (map_to_list year).*2).

(** [arr[i]] for an index computed by [Math.floor]: [None] is [undefined]. *)
Definition element (arr : list Z) (i : option Z) : option Z :=
  match i with
  | Some z => if decide (0 ≤ z)%Z then arr !! Z.to_nat z else None
  | None => None
  end.

(** [Math.ceil] of an array element: an integer is its own ceiling and
    [Math.ceil(undefined)] is [NaN]. *)
Definition Math_ceil (v : option Z) : number :=
  match v with
  | Some z => Int z
  | None => NaN
  end.

(** [Math.floor(allMedalCounts.length * fraction)] *)
Definition rankIndex (len : nat) (fraction : SpecFloat.spec_float) : option Z :=
  Double.floor (Double.mul (Double.of_Z (Z.of_nat len)) fraction).

(** The array literal of the eight selected values. *)
Definition selectBreaks (sorted : list Z) : list number :=
  (λ fraction, Math_ceil (element sorted (rankIndex (length sorted) fraction)))
    <$> fractions.

(** [[...new Set(xs)]]: each value once, in order of first occurrence
    ([NaN] equals [NaN] in a Set). *)
Definition Set_add (s : list number) (x : number) : list number :=
  if decide (x ∈ s) then s else s ++ [x].

Definition Set_of (xs : list number) : list number := foldl Set_add [] xs.

(** Everything after the collection loop, as a function of the collected
    array.  [sort((a, b) => a - b)] is a stable merge sort under the order
    its comparator induces.  The two lines that compute and log the range
    of the counts do not touch [quantileBreaks] and are left out. *)
Definition quantileBreaksOf (allMedalCounts : list Z) : list number :=
  let sorted := merge_sort Z.le allMedalCounts in
  merge_sort cmp_le (Set_of (selectBreaks sorted)).

Definition calculateQuantileBreaks (medalData : UnifiedYearTable) : list number :=
  quantileBreaksOf (collectMedalCounts medalData).

(** ** getColorForMedalCount *)

(** The [for] loop: the first index [i] with [count <= quantileBreaks[i]]. *)
Fixpoint firstBreak (count : number) (i : nat) (breaks : list number)
  : option nat :=
  match breaks with
  | [] => None
  | b :: rest =>
      if js_leb count b then Some i else firstBreak count (S i) rest
  end.

(** The index into [COLOR_PALETTE.colors] used for a Number [count]. *)
Definition bucketIndex (quantileBreaks : list number) (count : number) : nat :=
  match firstBreak count 0 quantileBreaks with
  | Some i => i
  | None => length COLOR_PALETTE.colors - 1
  end.

(** [None] stands for [undefined], what indexing past the palette gives. *)
Definition getColorForMedalCount (quantileBreaks : list number) (count : value)
  : option string :=
  match count with
  | Num (Int Z0) | Null | Undefined => Some COLOR_PALETTE.noData
  | Num n => COLOR_PALETTE.colors !! bucketIndex quantileBreaks n
  end.

(** ** getOlympicsForYear *)

Record olympics := Olympics {
  cancelled : bool;
  hasSummer : bool;
  hasWinter : bool
}.

Definition cancelledYears : list Z := [1916; 1940; 1944]%Z.

(** The [for .. of] loop over the countries of a year, with its [break]. *)
Fixpoint scanSeasons (countries : list Unified.entry)
    (hasSummer hasWinter : bool) : bool * bool :=
  match countries with
  | [] => (hasSummer, hasWinter)
  | country :: rest =>
      if bool_decide (is_Some (Unified.seasons country)) then (true, true)
      else if bool_decide (Unified.season country = Some "summer")
           then scanSeasons rest true hasWinter
      else if bool_decide (Unified.season country = Some "winter")
           then scanSeasons rest hasSummer true
      else scanSeasons rest hasSummer hasWinter
  end.

Definition getOlympicsForYear (medalData : UnifiedYearTable) (year : Z)
  : olympics :=
  if bool_decide (year ∈ cancelledYears) then Olympics true false false
  else
    match medalData !! pretty year with
    | None => Olympics false false false
    | Some yearData =>
        let '(s, w) := scanSeasons (map_to_list yearData).*2 false false in
        Olympics false s w
    end.

(** [c] is the double nearest to [p/100]: a 53-bit mantissa [mc] and an
    exponent [ec] with [|mc * 2^ec - p/100|] at most half a unit in the
    last place. *)
Definition nearest_percent (p : Z) (c : SpecFloat.spec_float) : Prop :=
  ∃ mc ec,
    c = SpecFloat.S754_finite false mc ec
    ∧ SpecFloat.Zdigits2 (Z.pos mc) = 53%Z
    ∧ (-55 ≤ ec ≤ -53)%Z
    ∧ (-50 ≤ 100 * Z.pos mc - p * 2 ^ (- ec) ≤ 50)%Z.

(** The literals as whole percents. *)
Definition percents : list Z := [15; 35; 55; 70; 82; 91; 96; 99]%Z.

(** [i] is the exact [floor (n * p / 100)], or one below it when
    [n * p / 100] is a whole number. *)
Definition index_near (n p i : Z) : Prop :=
  (0 ≤ i
   ∧ n * p / 100 - 1 ≤ i ≤ n * p / 100
   ∧ ((n * p) mod 100 ≠ 0 → i = n * p / 100))%Z.

(** ** The rank rule in the words of the specification

    "index = floor(fraction × N)", in exact arithmetic, and the break set
    built from it; these two are for comparison with [rankIndex] and
    [quantileBreaksOf] only. *)
Definition spec_rankIndex (n p : Z) : Z := (n * p / 100)%Z.

Definition spec_quantileBreaksOf (allMedalCounts : list Z) : list number :=
  let sorted := merge_sort Z.le allMedalCounts in
  Set_of
    ((λ p, Math_ceil
             (sorted !! Z.to_nat (spec_rankIndex (Z.of_nat (length sorted)) p)))
       <$> percents).

(** The worked distribution of the specification. *)
Definition example_distribution : list Z :=
  [1; 2; 2; 3; 5; 8; 13; 21; 34; 55]%Z.

(** ** Example tables *)

Definition germany_summer_1992 : Season.entry :=
  Season.Entry 33 21 28 false (Some "Germany").
Definition germany_winter_1992 : Season.entry :=
  Season.Entry 10 10 6 false None.
Definition summer_1992 : SeasonYearTable :=
  {[ "1992" := {[ "DE" := germany_summer_1992 ]} ]}.
Definition winter_1992 : SeasonYearTable :=
  {[ "1992" := {[ "DE" := germany_winter_1992 ]} ]}.

(** A Summer entry whose name is present but empty. *)
Definition unnamed_summer_1992 : Season.entry :=
  Season.Entry 33 21 28 false (Some "").
Definition named_winter_1992 : Season.entry :=
  Season.Entry 10 10 6 false (Some "Germany").

(** A table that holds an entry for the cancelled year 1940. *)
Definition stray_entry : Unified.entry :=
  Unified.Entry 1 0 0 false None None (Some "summer").
Definition stray_1940 : UnifiedYearTable :=
  {[ "1940" := {[ "DE" := stray_entry ]} ]}.

(** * The presentation code that uses the core *)

(** ** getCurrentMedalData

    [medalData[currentYear.toString()] || {}] *)
Definition getCurrentMedalData (medalData : UnifiedYearTable) (currentYear : Z)
  : gmap string Unified.entry :=
  default ∅ (medalData !! pretty currentYear).

(** ** updateMapColors

    The value handed to [map.setPaintProperty(.., 'fill-color', ..)]: the
    plain colour string, or the expression
    [['match', ['get', 'iso_3166_1'], iso1, color1, .., fallback]], kept as
    its list of (label, colour) pairs and its fallback.  A colour is what
    [getColorForMedalCount] returned, [None] being [undefined]. *)
Inductive fillColor :=
  | Constant (color : string)
  | Match (branches : list (string * option string)) (fallback : string).

(** The pairs are pushed in the order of [Object.keys(yearData)]; the
    properties below do not depend on that order. *)
Definition updateMapColors (medalData : UnifiedYearTable)
    (quantileBreaks : list number) (currentYear : Z) : fillColor :=
  let yearData := getCurrentMedalData medalData currentYear in
  if decide (length (map_to_list yearData) = 0) then
    Constant COLOR_PALETTE.noData
  else
    Match
      ((λ '(isoCode, country),
          (isoCode,
           getColorForMedalCount quantileBreaks
             (Num (Int (totalMedals country)))))
         <$> map_to_list yearData)
      COLOR_PALETTE.noData.

(** ** updateInfoBar

    The three texts it writes.  [countryCount || '—'] and
    [totalMedals || '—'] show the dash exactly when the number is [0];
    [None] stands for the dash. *)
Record infoBar := InfoBar {
  countryCountText : option nat;
  totalMedalsText : option Z;
  yearDisplayHTML : string
}.

Definition updateInfoBar (medalData : UnifiedYearTable) (currentYear : Z)
  : infoBar :=
  let yearData := getCurrentMedalData medalData currentYear in
  let olympics := getOlympicsForYear medalData currentYear in
  let countryCount := length (map_to_list yearData) in
  let sum :=
    foldl (λ acc country, acc + totalMedals country)%Z 0%Z
      (map_to_list yearData).*2 in
  InfoBar
    (if decide (countryCount = 0) then None else Some countryCount)
    (if decide (sum = 0%Z) then None else Some sum)
    (if bool_decide (currentYear ∈ cancelledYears) then
       "&#10060; " +:+ pretty currentYear
     else if hasSummer olympics && hasWinter olympics then
       "&#9728;&#65039; &#10052;&#65039; " +:+ pretty currentYear
     else if hasSummer olympics then
       "&#9728;&#65039; " +:+ pretty currentYear
     else if hasWinter olympics then
       "&#10052;&#65039; " +:+ pretty currentYear
     else
       "&#9728;&#65039; " +:+ pretty currentYear).

(** ** olympicYears (computed in [init])

    [[...new Set([...Object.keys(medalData).map(Number), ...cancelledYears])]
       .sort((a, b) => a - b)].  [Number] is the built-in conversion of a
    key to a Number, taken as a parameter. *)
Definition olympicYears (Number : string → number)
    (medalData : UnifiedYearTable) : list number :=
  merge_sort cmp_le
    (Set_of ((Number <$> (map_to_list medalData).*1)
             ++ (Int <$> cancelledYears))).

(** The medals of a season entry. *)
Definition seasonMedals (e : Season.entry) : Z :=
  (Season.gold e + Season.silver e + Season.bronze e)%Z.

(** The sum of [f] over the values of a dictionary. *)
Definition sumOver {V} (f : V → Z) (m : gmap string V) : Z :=
  foldr (λ v acc, f v + acc)%Z 0%Z (map_to_list m).*2.

(** An entry that makes the scan report Summer games: it carries a
    [seasons] breakdown or the tag "summer"; likewise for Winter. *)
Definition showsSummer (country : Unified.entry) : Prop :=
  is_Some (Unified.seasons country) ∨ Unified.season country = Some "summer".
Definition showsWinter (country : Unified.entry) : Prop :=
  is_Some (Unified.seasons country) ∨ Unified.season country = Some "winter".

(** ** The season label of a one-season popup ([showMedalPopup])

    [if (olympics.hasSummer && !olympics.hasWinter) seasonLabel = 'Summer';
     else if (olympics.hasWinter && !olympics.hasSummer) seasonLabel = 'Winter';]
    starting from the empty label. *)
Definition seasonLabel (medalData : UnifiedYearTable) (currentYear : Z)
  : string :=
  let olympics := getOlympicsForYear medalData currentYear in
  if hasSummer olympics && negb (hasWinter olympics) then "Summer"
  else if hasWinter olympics && negb (hasSummer olympics) then "Winter"
  else "".

(** A [Number] for the example: decimal keys of the example tables. *)
Definition example_Number (key : string) : number :=
  if String.eqb key "1992" then Int 1992%Z
  else if String.eqb key "1940" then Int 1940%Z
  else NaN.

(** ** updateLegend

    The numbers written into the four tick labels: whole numbers, or
    [-Infinity], which is what [Math.max()] of no argument gives. *)
Inductive tick := Whole (z : Z) | MinusInfinity | OtherTick.

(** [Math.max(...allMedalCounts)] *)
Definition Math_max (allMedalCounts : list Z) : tick :=
  foldr (λ z acc,
           match acc with
           | Whole m => Whole (Z.max z m)
           | _ => Whole z
           end)
    MinusInfinity allMedalCounts.

(** [maxMedals * literal] in double precision. *)
Definition tick_times (maxMedals : tick) (literal : SpecFloat.spec_float)
  : SpecFloat.spec_float :=
  match maxMedals with
  | Whole z => Double.mul (Double.of_Z z) literal
  | MinusInfinity => Double.mul (SpecFloat.S754_infinity true) literal
  | OtherTick => SpecFloat.S754_nan
  end.

(** [Math.round]: the nearest whole number, a tie going up.
    [OtherTick] stands for [NaN] and [+Infinity], which do not occur
    here. *)
Definition Math_round (x : SpecFloat.spec_float) : tick :=
  match x with
  | SpecFloat.S754_zero _ => Whole 0%Z
  | SpecFloat.S754_finite s m e =>
      let v := SpecFloat.cond_Zopp s (Z.pos m) in
      Whole (if decide (0 ≤ e)%Z then v * 2 ^ e
             else (2 * v + 2 ^ (- e)) / 2 ^ (1 - e))%Z
  | SpecFloat.S754_infinity true => MinusInfinity
  | _ => OtherTick
  end.

(** The literals [0.75], [0.5] and [0.25]. *)
Definition literal_075 : SpecFloat.spec_float :=
  Eval vm_compute in Double.percent 75.
Definition literal_05 : SpecFloat.spec_float :=
  Eval vm_compute in Double.percent 50.
Definition literal_025 : SpecFloat.spec_float :=
  Eval vm_compute in Double.percent 25.

Record legend := Legend {
  maxMedalCount : tick;
  threeQuarterMedalCount : tick;
  halfMedalCount : tick;
  quarterMedalCount : tick
}.

Definition updateLegend (medalData : UnifiedYearTable) : legend :=
  let maxMedals := Math_max (collectMedalCounts medalData) in
  Legend maxMedals
    (Math_round (tick_times maxMedals literal_075))
    (Math_round (tick_times maxMedals literal_05))
    (Math_round (tick_times maxMedals literal_025)).

(** * Properties *)

(** ** Lookup in the result of a key loop *)

Section assign_loop.
Context {V : Type} (f : string → option V).

Lemma assign_loop_lookup (keys : gset string) (k : string) :
  set_fold (assign f) ∅ keys !! k = if decide (k ∈ keys) then f k else None.
Proof.
  revert k.
  pose (P := λ (m : gmap string V) (X : gset string),
               ∀ k, m !! k = if decide (k ∈ X) then f k else None).
  change (P (set_fold (assign f) ∅ keys) keys).
  apply set_fold_ind_L; unfold P; clear P.
  - intros k. rewrite lookup_empty. by rewrite decide_False by set_solver.
  - intros x X m Hx IH k. unfold assign.
    destruct (decide (k = x)) as [->|Hne].
    + rewrite decide_True by set_solver.
      destruct (f x) eqn:Hf.
      * by rewrite lookup_insert_eq.
      * rewrite IH. by rewrite decide_False.
    + assert (m !! k = if decide (k ∈ {[x]} ∪ X) then f k else None) as <-.
      { rewrite IH. destruct (decide (k ∈ X)).
        - rewrite decide_True; [done|]. apply elem_of_union. by right.
        - rewrite decide_False; [done|].
          rewrite elem_of_union, elem_of_singleton. by intros [?|?]. }
      destruct (f x); [by rewrite lookup_insert_ne|done].
Qed.
End assign_loop.

Lemma unifyYear_lookup summerData winterData isoCode :
  unifyYear summerData winterData !! isoCode
  = unifyCountry (summerData !! isoCode) (winterData !! isoCode).
Proof.
  unfold unifyYear. rewrite assign_loop_lookup.
  destruct (decide _) as [|Hn]; [done|].
  rewrite elem_of_union, !elem_of_dom in Hn.
  destruct (summerData !! isoCode) eqn:E1, (winterData !! isoCode) eqn:E2;
    try done; exfalso; apply Hn; eauto.
Qed.

Lemma buildUnifiedMedalData_lookup summerMedals winterMedals year :
  buildUnifiedMedalData summerMedals winterMedals !! year
  = if decide (year ∈ dom summerMedals ∪ dom winterMedals)
    then Some (unifyYear (yearData summerMedals year)
                         (yearData winterMedals year))
    else None.
Proof. unfold buildUnifiedMedalData. by rewrite assign_loop_lookup. Qed.

Lemma unifyCountry_is_Some summer winter :
  is_Some (unifyCountry summer winter) ↔ is_Some summer ∨ is_Some winter.
Proof.
  destruct summer, winter; simpl; split; try (intros; eauto; fail).
  - by intros [? ?].
  - by intros [[? ?]|[? ?]].
Qed.

Lemma yearData_lookup_Some medals year isoCode e :
  yearData medals year !! isoCode = Some e ↔
  ∃ data, medals !! year = Some data ∧ data !! isoCode = Some e.
Proof.
  unfold yearData. destruct (medals !! year) as [data|]; simpl.
  - split; [eauto|]. by intros (? & [= <-] & ?).
  - rewrite lookup_empty. split; [done|]. by intros (? & ? & ?).
Qed.

(** The entry the unified table holds for a country in a year is
    [unifyCountry] of the two source lookups. *)
Lemma unified_entry summerMedals winterMedals year isoCode :
  buildUnifiedMedalData summerMedals winterMedals !! year ≫= (.!! isoCode)
  = unifyCountry (yearData summerMedals year !! isoCode)
                 (yearData winterMedals year !! isoCode).
Proof.
  rewrite buildUnifiedMedalData_lookup.
  destruct (decide _) as [|Hn]; simpl.
  - apply unifyYear_lookup.
  - rewrite elem_of_union, !elem_of_dom in Hn.
    unfold yearData.
    destruct (summerMedals !! year) eqn:E1; [exfalso; eauto|].
    destruct (winterMedals !! year) eqn:E2; [exfalso; eauto|].
    simpl. by rewrite lookup_empty.
Qed.

Lemma unified_entry_Some summerMedals winterMedals year unifiedYear isoCode e :
  buildUnifiedMedalData summerMedals winterMedals !! year = Some unifiedYear →
  unifiedYear !! isoCode = Some e →
  unifyCountry (yearData summerMedals year !! isoCode)
               (yearData winterMedals year !! isoCode) = Some e.
Proof.
  intros Hy He. rewrite <- unified_entry. rewrite Hy. simpl. exact He.
Qed.

Lemma unifyYear_dom summerData winterData :
  dom (unifyYear summerData winterData) = dom summerData ∪ dom winterData.
Proof.
  apply set_eq. intros isoCode.
  rewrite elem_of_union, !elem_of_dom, unifyYear_lookup.
  apply unifyCountry_is_Some.
Qed.

(** ** DataUnifier: the claims *)

(** C3. The years of the unified table are the union of the years of the
    two season tables; for each year the countries are the union of the
    countries either season lists for that year; and every unified entry
    has a source entry in at least one season table. *)
Theorem unified_keys_are_union summerMedals winterMedals :
  dom (buildUnifiedMedalData summerMedals winterMedals)
    = dom summerMedals ∪ dom winterMedals
  ∧ (∀ year unifiedYear,
       buildUnifiedMedalData summerMedals winterMedals !! year
         = Some unifiedYear →
       dom unifiedYear
         = dom (yearData summerMedals year) ∪ dom (yearData winterMedals year))
  ∧ (∀ year unifiedYear isoCode e,
       buildUnifiedMedalData summerMedals winterMedals !! year
         = Some unifiedYear →
       unifiedYear !! isoCode = Some e →
       (∃ data s, summerMedals !! year = Some data ∧ data !! isoCode = Some s)
       ∨ (∃ data w, winterMedals !! year = Some data ∧ data !! isoCode = Some w)).
Proof.
  split; [|split].
  - apply set_eq. intros year.
    rewrite elem_of_dom, buildUnifiedMedalData_lookup.
    destruct (decide _) as [Hin|Hnin]; split; intros H;
      try done; try (by destruct H); eauto.
  - intros year unifiedYear Hy.
    rewrite buildUnifiedMedalData_lookup in Hy.
    destruct (decide _); [|done]. injection Hy as <-.
    apply unifyYear_dom.
  - intros year unifiedYear isoCode e Hy He.
    pose proof (unified_entry_Some _ _ _ _ _ _ Hy He) as Hu.
    destruct (yearData summerMedals year !! isoCode) as [s|] eqn:Es.
    + left. apply yearData_lookup_Some in Es as (data & ? & ?). eauto.
    + destruct (yearData winterMedals year !! isoCode) as [w|] eqn:Ew;
        [|done].
      right. apply yearData_lookup_Some in Ew as (data & ? & ?). eauto.
Qed.

Lemma unified_keys_are_union_witness :
  dom (buildUnifiedMedalData summer_1992 ∅) = {[ "1992" ]}
  ∧ ((∃ data s, summer_1992 !! "1992" = Some data ∧ data !! "DE" = Some s)
     ∨ (∃ data w, (∅ : SeasonYearTable) !! "1992" = Some data
                  ∧ data !! "DE" = Some w)).
Proof.
  destruct (unified_keys_are_union summer_1992 ∅) as (Hd & _ & Hsrc).
  split.
  - rewrite Hd. unfold summer_1992.
    rewrite dom_singleton_L, dom_empty_L. apply (right_id_L ∅ (∪)).
  - apply (Hsrc "1992"
             (unifyYear (yearData summer_1992 "1992") (yearData ∅ "1992"))
             "DE"
             (Unified.Entry 33 21 28 false (Some "Germany") None
                (Some "summer"))).
    + rewrite buildUnifiedMedalData_lookup. apply decide_True.
      unfold summer_1992. rewrite dom_singleton_L. set_solver.
    + rewrite unifyYear_lookup. unfold yearData, summer_1992.
      rewrite lookup_singleton_eq, lookup_empty. simpl.
      rewrite lookup_singleton_eq, lookup_empty. reflexivity.
Defined.

Section both_seasons.
Context (summerMedals winterMedals : SeasonYearTable).
Context (year isoCode : string).
Context (summerData winterData : gmap string Season.entry).
Context (s w : Season.entry).
Hypothesis summer_year : summerMedals !! year = Some summerData.
Hypothesis summer_entry : summerData !! isoCode = Some s.
Hypothesis winter_year : winterMedals !! year = Some winterData.
Hypothesis winter_entry : winterData !! isoCode = Some w.

Lemma both_seasons_entry :
  buildUnifiedMedalData summerMedals winterMedals !! year ≫= (.!! isoCode)
  = unifyCountry (Some s) (Some w).
Proof using All.
  rewrite unified_entry. unfold yearData.
  rewrite summer_year, winter_year. simpl.
  by rewrite summer_entry, winter_entry.
Qed.
End both_seasons.

(** C4. For a year and country present in both season tables the unified
    entry exists, its gold, silver and bronze are the sums of the two
    figures of its [seasons] breakdown, its [historical] flag is the
    disjunction of the two flags, and the breakdown holds each season's own
    figures, those of the source entries. *)
Theorem both_seasons_totals
    (summerMedals winterMedals : SeasonYearTable) (year isoCode : string)
    (summerData winterData : gmap string Season.entry) (s w : Season.entry) :
  summerMedals !! year = Some summerData →
  summerData !! isoCode = Some s →
  winterMedals !! year = Some winterData →
  winterData !! isoCode = Some w →
  ∃ e b,
    buildUnifiedMedalData summerMedals winterMedals !! year ≫= (.!! isoCode)
      = Some e
    ∧ Unified.seasons e = Some b
    ∧ Unified.gold e = (t_gold (summer b) + t_gold (winter b))%Z
    ∧ Unified.silver e = (t_silver (summer b) + t_silver (winter b))%Z
    ∧ Unified.bronze e = (t_bronze (summer b) + t_bronze (winter b))%Z
    ∧ Unified.historical e = Season.historical s || Season.historical w
    ∧ summer b = Tally (Season.gold s) (Season.silver s) (Season.bronze s)
    ∧ winter b = Tally (Season.gold w) (Season.silver w) (Season.bronze w).
Proof.
  intros Hsy Hs Hwy Hw.
  rewrite (both_seasons_entry _ _ _ _ _ _ _ _ Hsy Hs Hwy Hw). simpl.
  eexists _, _. repeat split; reflexivity.
Qed.

Lemma both_seasons_totals_witness :
  ∃ e b,
    buildUnifiedMedalData summer_1992 winter_1992 !! "1992" ≫= (.!! "DE")
      = Some e
    ∧ Unified.seasons e = Some b
    ∧ Unified.gold e = (t_gold (summer b) + t_gold (winter b))%Z
    ∧ Unified.silver e = (t_silver (summer b) + t_silver (winter b))%Z
    ∧ Unified.bronze e = (t_bronze (summer b) + t_bronze (winter b))%Z
    ∧ Unified.historical e = false || false
    ∧ summer b = Tally 33 21 28
    ∧ winter b = Tally 10 10 6.
Proof.
  apply (both_seasons_totals summer_1992 winter_1992 "1992" "DE"
           {[ "DE" := germany_summer_1992 ]} {[ "DE" := germany_winter_1992 ]}
           germany_summer_1992 germany_winter_1992);
    apply lookup_singleton_eq.
Defined.

(** The spec's worked example: 33 + 10 gold medals. *)
Example germany_1992_gold :
  Unified.gold <$>
    (buildUnifiedMedalData summer_1992 winter_1992 !! "1992" ≫= (.!! "DE"))
  = Some 43%Z.
Proof.
  rewrite (both_seasons_entry summer_1992 winter_1992 "1992" "DE"
             {[ "DE" := germany_summer_1992 ]} {[ "DE" := germany_winter_1992 ]}
             germany_summer_1992 germany_winter_1992);
    by (reflexivity || apply lookup_singleton_eq).
Qed.

(** C8, as stated, fails: a Summer name that is present but empty is
    passed over by [||] and the Winter name is taken. *)
Lemma display_name_empty_summer :
  Season.display_name unnamed_summer_1992 = Some ""
  ∧ Unified.display_name <$>
      (buildUnifiedMedalData
         {[ "1992" := {[ "DE" := unnamed_summer_1992 ]} ]}
         {[ "1992" := {[ "DE" := named_winter_1992 ]} ]}
         !! "1992" ≫= (.!! "DE"))
    = Some (Some "Germany").
Proof.
  split; [reflexivity|].
  rewrite (both_seasons_entry _ _ "1992" "DE"
             {[ "DE" := unnamed_summer_1992 ]} {[ "DE" := named_winter_1992 ]}
             unnamed_summer_1992 named_winter_1992);
    by (reflexivity || apply lookup_singleton_eq).
Qed.

(** C8, amended. For a year and country present in both season tables the
    unified [display_name] is the Summer name when that field is present
    and not the empty string, and whatever the Winter entry has in that
    field (a name, or nothing) otherwise. *)
Theorem both_seasons_display_name
    (summerMedals winterMedals : SeasonYearTable) (year isoCode : string)
    (summerData winterData : gmap string Season.entry) (s w : Season.entry) :
  summerMedals !! year = Some summerData →
  summerData !! isoCode = Some s →
  winterMedals !! year = Some winterData →
  winterData !! isoCode = Some w →
  ∃ e,
    buildUnifiedMedalData summerMedals winterMedals !! year ≫= (.!! isoCode)
      = Some e
    ∧ (∀ name, Season.display_name s = Some name → name ≠ "" →
         Unified.display_name e = Some name)
    ∧ (Season.display_name s = None ∨ Season.display_name s = Some "" →
         Unified.display_name e = Season.display_name w).
Proof.
  intros Hsy Hs Hwy Hw.
  rewrite (both_seasons_entry _ _ _ _ _ _ _ _ Hsy Hs Hwy Hw). simpl.
  eexists. split; [reflexivity|]. simpl. unfold js_or, truthy.
  split.
  - intros name -> Hne.
    destruct (String.eqb_spec name ""); [done|reflexivity].
  - intros [->| ->]; reflexivity.
Qed.

Lemma both_seasons_display_name_witness :
  ∃ e,
    buildUnifiedMedalData summer_1992 winter_1992 !! "1992" ≫= (.!! "DE")
      = Some e
    ∧ (∀ name, Some "Germany" = Some name → name ≠ "" →
         Unified.display_name e = Some name)
    ∧ (Some "Germany" = None ∨ Some "Germany" = Some "" →
         Unified.display_name e = None).
Proof.
  apply (both_seasons_display_name summer_1992 winter_1992 "1992" "DE"
           {[ "DE" := germany_summer_1992 ]} {[ "DE" := germany_winter_1992 ]}
           germany_summer_1992 germany_winter_1992);
    apply lookup_singleton_eq.
Defined.

(** C9. Every entry of the unified table has exactly one of the two
    shapes: a [seasons] breakdown and no [season] tag, or a [season] tag
    (which is "summer" or "winter") and no breakdown. *)
Theorem unified_entry_shape
    (summerMedals winterMedals : SeasonYearTable) (year isoCode : string)
    (unifiedYear : gmap string Unified.entry) (e : Unified.entry) :
  buildUnifiedMedalData summerMedals winterMedals !! year = Some unifiedYear →
  unifiedYear !! isoCode = Some e →
  (is_Some (Unified.seasons e) ∧ Unified.season e = None)
  ∨ (Unified.seasons e = None
     ∧ (Unified.season e = Some "summer" ∨ Unified.season e = Some "winter")).
Proof.
  intros Hy He.
  pose proof (unified_entry_Some _ _ _ _ _ _ Hy He) as Hu.
  destruct (yearData summerMedals year !! isoCode),
           (yearData winterMedals year !! isoCode);
    simpl in Hu; simplify_eq; simpl; eauto.
Qed.

Lemma unified_entry_shape_witness :
  (is_Some (Some (Breakdown (Tally 33 21 28) (Tally 10 10 6)))
   ∧ (None : option string) = None)
  ∨ (Some (Breakdown (Tally 33 21 28) (Tally 10 10 6)) = None
     ∧ ((None : option string) = Some "summer"
        ∨ (None : option string) = Some "winter")).
Proof.
  apply (unified_entry_shape summer_1992 winter_1992 "1992" "DE"
           (unifyYear (yearData summer_1992 "1992")
                      (yearData winter_1992 "1992"))
           (Unified.Entry 43 31 34 false (Some "Germany")
              (Some (Breakdown (Tally 33 21 28) (Tally 10 10 6))) None)).
  - rewrite buildUnifiedMedalData_lookup. apply decide_True.
    unfold summer_1992. rewrite dom_singleton_L. set_solver.
  - rewrite unifyYear_lookup. unfold yearData, summer_1992, winter_1992.
    rewrite !lookup_singleton_eq. simpl.
    rewrite !lookup_singleton_eq. reflexivity.
Defined.

(** ** Double-precision rounding of [length * fraction] *)

Section double_rounding.
Import SpecFloat.
Local Open Scope Z_scope.

Lemma digits2_pos_size p : digits2_pos p = Pos.size p.
Proof. induction p; simpl; congruence. Qed.

Lemma Zdigits2_log2 m : 0 < m → Zdigits2 m = Z.log2 m + 1.
Proof.
  destruct m as [|p|p]; try lia. intros _. simpl.
  rewrite digits2_pos_size. destruct p; simpl; lia.
Qed.

Lemma Zdigits2_bounds m :
  0 < m → 2 ^ (Zdigits2 m - 1) ≤ m < 2 ^ Zdigits2 m.
Proof.
  intros Hm. rewrite Zdigits2_log2 by done.
  replace (Z.log2 m + 1 - 1) with (Z.log2 m) by lia.
  apply Z.log2_spec. done.
Qed.

Lemma Zdigits2_unique m d :
  0 < d → 2 ^ (d - 1) ≤ m < 2 ^ d → Zdigits2 m = d.
Proof.
  intros Hd Hm.
  assert (0 < m) by (pose proof (Z.pow_pos_nonneg 2 (d - 1)); lia).
  rewrite Zdigits2_log2 by done.
  rewrite (Z.log2_unique m (d - 1)); [lia|lia|].
  replace (Z.succ (d - 1)) with d by lia. done.
Qed.

Lemma iter_pos_nat {A} (f : A → A) p x :
  iter_pos f p x = Nat.iter (Pos.to_nat p) f x.
Proof.
  revert x. induction p as [p IH|p IH|]; intros x; cbn [iter_pos].
  - rewrite !IH. rewrite Pos2Nat.inj_xI.
    replace (S (2 * Pos.to_nat p))%nat
      with (Pos.to_nat p + (Pos.to_nat p + 1))%nat by lia.
    rewrite !Nat.iter_add. simpl. done.
  - rewrite !IH. rewrite Pos2Nat.inj_xO.
    replace (2 * Pos.to_nat p)%nat
      with (Pos.to_nat p + Pos.to_nat p)%nat by lia.
    by rewrite Nat.iter_add.
  - done.
Qed.

Lemma shr_1_m mrs : 0 ≤ shr_m mrs → shr_m (shr_1 mrs) = shr_m mrs / 2.
Proof.
  destruct mrs as [m r s]. simpl. intros Hm.
  rewrite <- Z.div2_div.
  destruct m as [|[p|p|]|p]; simpl; try done; lia.
Qed.

Lemma shr_iter_m n mrs :
  0 ≤ shr_m mrs →
  shr_m (Nat.iter n shr_1 mrs) = shr_m mrs / 2 ^ Z.of_nat n.
Proof.
  intros Hm. induction n as [|n IH].
  - simpl. by rewrite Z.div_1_r.
  - rewrite Nat2Z.inj_succ, Z.pow_succ_r by lia. simpl.
    rewrite shr_1_m.
    + rewrite IH. rewrite Z.div_div by lia. f_equal. lia.
    + rewrite IH. apply Z.div_pos; lia.
Qed.

Lemma shr_spec mrs e k :
  0 ≤ k → 0 ≤ shr_m mrs →
  shr_m (fst (shr mrs e k)) = shr_m mrs / 2 ^ k ∧ snd (shr mrs e k) = e + k.
Proof.
  intros Hk Hm. destruct k as [|p|p]; simpl; try lia.
  - rewrite Z.div_1_r. lia.
  - rewrite iter_pos_nat, shr_iter_m by done.
    by rewrite positive_nat_Z.
Qed.

Lemma shr_fexp_spec m e :
  0 < m → 53 ≤ Zdigits2 m → -1074 ≤ Zdigits2 m + e - 53 →
  shr_m (fst (shr_fexp 53 1024 m e loc_Exact)) = m / 2 ^ (Zdigits2 m - 53)
  ∧ snd (shr_fexp 53 1024 m e loc_Exact) = e + (Zdigits2 m - 53).
Proof.
  intros Hm Hd He. unfold shr_fexp, fexp, emin.
  replace (Z.max (Zdigits2 m + e - 53) (3 - 1024 - 53) - e)
    with (Zdigits2 m - 53) by lia.
  apply shr_spec; simpl; lia.
Qed.

Lemma round_nearest_even_cases q l :
  round_nearest_even q l = q ∨ round_nearest_even q l = q + 1.
Proof.
  destruct l as [|[| |]]; simpl; auto. destruct (Z.even q); auto.
Qed.

(** Rounding the exact product to 53 bits: the mantissa [mx] loses its
    [k] low bits and is then kept or bumped by one; a bump to [2^53]
    renormalises to [2^52] with the exponent one higher. *)
Lemma binary_round_aux_spec mx ex :
  let k := Zdigits2 (Z.pos mx) - 53 in
  let q := Z.pos mx / 2 ^ k in
  0 ≤ k → -1074 ≤ ex + k → ex + k < 971 →
  ∃ m e,
    binary_round_aux 53 1024 false (Z.pos mx) ex loc_Exact
      = S754_finite false m e
    ∧ ((e = ex + k ∧ (Z.pos m = q ∨ Z.pos m = q + 1))
       ∨ (e = ex + k + 1 ∧ 2 * Z.pos m = q + 1)).
Proof.
  intros k q Hk Hlo Hhi.
  assert (0 < 2 ^ k) as HK by (apply Z.pow_pos_nonneg; lia).
  assert (2 ^ 52 ≤ q < 2 ^ 53) as Hq.
  { pose proof (Zdigits2_bounds (Z.pos mx) eq_refl) as [Hl Hu].
    replace (Zdigits2 (Z.pos mx) - 1) with (k + 52) in Hl by lia.
    replace (Zdigits2 (Z.pos mx)) with (k + 53) in Hu by lia.
    rewrite Z.pow_add_r in Hl, Hu by lia.
    split.
    - apply Z.div_le_lower_bound; lia.
    - apply Z.div_lt_upper_bound; lia. }
  unfold binary_round_aux.
  destruct (shr_fexp_spec (Z.pos mx) ex) as [Hm1 He1]; [lia|lia|lia|].
  destruct (shr_fexp 53 1024 (Z.pos mx) ex loc_Exact) as [mrs1 e1].
  cbn [fst snd] in Hm1, He1. fold k in Hm1, He1. fold q in Hm1.
  set (m2 := round_nearest_even (shr_m mrs1) (loc_of_shr_record mrs1)).
  assert (m2 = q ∨ m2 = q + 1) as Hm2.
  { unfold m2. rewrite <- Hm1. apply round_nearest_even_cases. }
  destruct (decide (m2 < 2 ^ 53)) as [Hlt|Hge].
  - assert (Zdigits2 m2 = 53) as Hd2 by (apply Zdigits2_unique; lia).
    destruct (shr_fexp_spec m2 e1) as [Hm3 He3]; [lia|lia|lia|].
    destruct (shr_fexp 53 1024 m2 e1 loc_Exact) as [mrs3 e3].
    cbn [fst snd] in Hm3, He3. rewrite Hd2 in Hm3, He3.
    change (2 ^ (53 - 53)) with 1 in Hm3. rewrite Z.div_1_r in Hm3.
    destruct (shr_m mrs3) as [|m|m] eqn:Em; try lia.
    replace (e3 <=? 1024 - 53) with true by (symmetry; apply Z.leb_le; lia).
    eexists _, _. split; [reflexivity|]. left. lia.
  - assert (m2 = 2 ^ 53) as Hm253 by lia.
    assert (Zdigits2 m2 = 54) as Hd2 by (apply Zdigits2_unique; lia).
    destruct (shr_fexp_spec m2 e1) as [Hm3 He3]; [lia|lia|lia|].
    destruct (shr_fexp 53 1024 m2 e1 loc_Exact) as [mrs3 e3].
    cbn [fst snd] in Hm3, He3. rewrite Hd2 in Hm3, He3.
    rewrite Hm253 in Hm3. change (2 ^ 53 / 2 ^ (54 - 53)) with (2 ^ 52) in Hm3.
    destruct (shr_m mrs3) as [|m|m] eqn:Em; try lia.
    replace (e3 <=? 1024 - 53) with true by (symmetry; apply Z.leb_le; lia).
    eexists _, _. split; [reflexivity|]. right. lia.
Qed.

(** A mantissa of exactly 53 bits is left alone. *)
Lemma binary_round_aux_exact mx ex :
  Zdigits2 (Z.pos mx) = 53 → -1074 ≤ ex ≤ 971 →
  binary_round_aux 53 1024 false (Z.pos mx) ex loc_Exact
    = S754_finite false mx ex.
Proof.
  intros Hd He.
  assert (∀ e, -1074 ≤ e →
            shr_fexp 53 1024 (Z.pos mx) e loc_Exact
              = (Build_shr_record (Z.pos mx) false false, e)) as Hshr.
  { intros e Hle. unfold shr_fexp, fexp, emin. rewrite Hd.
    replace (Z.max (53 + e - 53) (3 - 1024 - 53) - e) with 0 by lia.
    reflexivity. }
  unfold binary_round_aux. rewrite Hshr by lia.
  cbn [shr_m loc_of_shr_record round_nearest_even].
  rewrite Hshr by lia. cbn [shr_m].
  replace (ex <=? 1024 - 53) with true by (symmetry; apply Z.leb_le; lia).
  reflexivity.
Qed.

Lemma Pos_iter_xO p k : Z.pos (Pos.iter xO p k) = Z.pos p * 2 ^ Z.pos k.
Proof.
  induction k as [|k IH] using Pos.peano_ind.
  - simpl. lia.
  - rewrite Pos.iter_succ, Pos2Z.inj_succ, Z.pow_succ_r by lia.
    rewrite Pos2Z.inj_xO, IH. lia.
Qed.

(** An array length as a double: exact, with a 53-bit mantissa. *)
Lemma of_Z_spec n :
  0 < n < 2 ^ 53 →
  ∃ mz ez,
    Double.of_Z n = S754_finite false mz ez
    ∧ ez = Zdigits2 n - 53
    ∧ Z.pos mz = n * 2 ^ (- ez)
    ∧ Zdigits2 (Z.pos mz) = 53.
Proof.
  intros [Hn0 Hn53]. destruct n as [|p|p]; try lia.
  pose proof (Zdigits2_bounds (Z.pos p) eq_refl) as [Hl Hu].
  set (d := Zdigits2 (Z.pos p)) in *.
  assert (1 ≤ d ≤ 53) as Hd.
  { split.
    - unfold d. simpl. lia.
    - destruct (decide (d ≤ 53)); [done|].
      assert (2 ^ 53 ≤ 2 ^ (d - 1)) by (apply Z.pow_le_mono_r; lia). lia. }
  unfold Double.of_Z, binary_normalize, binary_round, shl_align.
  unfold fexp, emin, Double.prec, Double.emax.
  change (Z.pos (digits2_pos p)) with d.
  replace (Z.max (d + 0 - 53) (3 - 1024 - 53) - 0) with (d - 53) by lia.
  destruct (d - 53) as [|c|c] eqn:Ec; try lia.
  - exists p, 0. rewrite binary_round_aux_exact by (fold d; lia).
    repeat split; lia.
  - assert (Z.pos (Pos.iter xO p c) = Z.pos p * 2 ^ Z.pos c) as Hz
      by apply Pos_iter_xO.
    assert (0 < 2 ^ Z.pos c) by (apply Z.pow_pos_nonneg; lia).
    assert (2 ^ (53 - 1) = 2 ^ (d - 1) * 2 ^ Z.pos c) as H52
      by (rewrite <- Z.pow_add_r by lia; f_equal; lia).
    assert (2 ^ 53 = 2 ^ d * 2 ^ Z.pos c) as H53
      by (rewrite <- Z.pow_add_r by lia; f_equal; lia).
    assert (Zdigits2 (Z.pos (Pos.iter xO p c)) = 53) as Hd53.
    { apply Zdigits2_unique; [lia|]. rewrite Hz, H52, H53. nia. }
    exists (Pos.iter xO p c), (Z.neg c).
    replace (Z.max (d + 0 - 53) (3 - 1024 - 53)) with (Z.neg c) by lia.
    rewrite binary_round_aux_exact by (done || lia).
    repeat split; done.
Qed.

(** The index computed for a length [n] and a 53-bit constant
    [mc * 2^ec]: with [X = n * W * mc] the exact product scaled to an
    integer, the rounded mantissa [J] is [X / K] or one more, and the
    index is [J / D]. *)
Lemma rankIndex_spec (len : nat) mc ec :
  let n := Z.of_nat len in
  0 < n < 2 ^ 32 → Zdigits2 (Z.pos mc) = 53 → -55 ≤ ec ≤ -53 →
  ∃ W K D J,
    0 < W ∧ 0 < K ∧ 0 < D
    ∧ D * K = W * 2 ^ (- ec)
    ∧ K * 2 ^ 52 ≤ n * W * Z.pos mc
    ∧ (J = n * W * Z.pos mc / K ∨ J = n * W * Z.pos mc / K + 1)
    ∧ rankIndex len (S754_finite false mc ec) = Some (J / D).
Proof.
  intros n Hn Hmc Hec.
  destruct (of_Z_spec n) as (mz & ez & Hof & Hez & Hmz & Hdz); [lia|].
  assert (1 ≤ Zdigits2 n ≤ 32) as Hdn.
  { pose proof (Zdigits2_bounds n ltac:(lia)) as [Hl Hu]. split.
    - rewrite Zdigits2_log2 by lia. pose proof (Z.log2_nonneg n). lia.
    - destruct (decide (Zdigits2 n ≤ 32)); [done|].
      assert (2 ^ 32 ≤ 2 ^ (Zdigits2 n - 1)) by (apply Z.pow_le_mono_r; lia).
      lia. }
  pose proof (Zdigits2_bounds (Z.pos mz) eq_refl) as Hbz.
  pose proof (Zdigits2_bounds (Z.pos mc) eq_refl) as Hbc.
  rewrite Hdz in Hbz. rewrite Hmc in Hbc.
  set (X := Z.pos (mz * mc)).
  assert (X = Z.pos mz * Z.pos mc) as HX by (unfold X; lia).
  assert (2 ^ 104 ≤ X < 2 ^ 106) as HXb.
  { rewrite HX. change (2 ^ 104) with (2 ^ (53 - 1) * 2 ^ (53 - 1)).
    change (2 ^ 106) with (2 ^ 53 * 2 ^ 53). nia. }
  pose proof (Zdigits2_bounds X eq_refl) as HdX.
  assert (105 ≤ Zdigits2 X ≤ 106) as Hd.
  { split.
    - destruct (decide (105 ≤ Zdigits2 X)); [done|].
      assert (2 ^ Zdigits2 X ≤ 2 ^ 104) by (apply Z.pow_le_mono_r; lia).
      lia.
    - destruct (decide (Zdigits2 X ≤ 106)); [done|].
      assert (2 ^ 106 ≤ 2 ^ (Zdigits2 X - 1))
        by (apply Z.pow_le_mono_r; lia).
      lia. }
  set (k := Zdigits2 X - 53) in *.
  destruct (binary_round_aux_spec (mz * mc) (ez + ec))
    as (m & e & Hround & Hcases); fold X; fold k; try lia.
  fold X in Hcases. fold k in Hcases.
  unfold rankIndex. fold n. rewrite Hof.
  unfold Double.mul, SFmul, Double.prec, Double.emax. cbn [xorb].
  rewrite Hround. unfold Double.floor, cond_Zopp.
  set (Ex := ez + ec + k) in *.
  assert (-55 ≤ Ex ≤ -21) as HEx by (unfold Ex, k; lia).
  assert (0 < 2 ^ k) by (apply Z.pow_pos_nonneg; lia).
  assert (0 < 2 ^ (- ez)) by (apply Z.pow_pos_nonneg; lia).
  assert (0 < 2 ^ (- Ex)) by (apply Z.pow_pos_nonneg; lia).
  assert (2 ^ (- Ex) * 2 ^ k = 2 ^ (- ez) * 2 ^ (- ec)) as HDK.
  { rewrite <- !Z.pow_add_r by lia. f_equal. unfold Ex. lia. }
  assert (2 ^ k * 2 ^ 52 ≤ X) as HK52.
  { rewrite <- Z.pow_add_r by lia.
    replace (k + 52) with (Zdigits2 X - 1) by (unfold k; lia). lia. }
  exists (2 ^ (- ez)), (2 ^ k), (2 ^ (- Ex)).
  replace (n * 2 ^ (- ez) * Z.pos mc) with X by (rewrite HX, Hmz; done).
  destruct Hcases as [[-> Hm]|[-> Hm]].
  - exists (Z.pos m). repeat split; try done.
    replace Ex with (- - Ex) at 1 by lia.
    rewrite Z.shiftl_opp_r, Z.shiftr_div_pow2 by lia. done.
  - exists (2 * Z.pos m). repeat split; try done; [right; lia|].
    replace (Ex + 1) with (- (- Ex - 1)) by lia.
    rewrite Z.shiftl_opp_r, Z.shiftr_div_pow2 by lia.
    replace (2 ^ (- Ex)) with (2 * 2 ^ (- Ex - 1)).
    + rewrite Z.div_mul_cancel_l; [done| |lia].
      assert (0 < 2 ^ (- Ex - 1)) by (apply Z.pow_pos_nonneg; lia). lia.
    + rewrite <- Z.pow_succ_r by lia. f_equal. lia.
Qed.

Lemma fractions_nearest :
  Forall2 nearest_percent percents fractions.
Proof.
  unfold fractions, percents.
  repeat constructor; eexists _, _; (split; [reflexivity|]);
    (split; [reflexivity|]); split; vm_compute; split; discriminate.
Qed.

(** The index selected for a length [n] and the literal [p/100]: the
    exact [floor (n * p / 100)], except that it may be one less when
    [n * p / 100] is a whole number. *)
Lemma rankIndex_floor (len : nat) p c :
  let n := Z.of_nat len in
  0 < n < 2 ^ 32 → 15 ≤ p ≤ 99 → nearest_percent p c →
  ∃ i,
    rankIndex len c = Some i
    ∧ 0 ≤ i
    ∧ n * p / 100 - 1 ≤ i ≤ n * p / 100
    ∧ ((n * p) mod 100 ≠ 0 → i = n * p / 100).
Proof.
  intros n Hn Hp (mc & ec & -> & Hmc & Hec & Hnear).
  destruct (rankIndex_spec len mc ec Hn Hmc Hec)
    as (W & K & D & J & HW & HK & HD & HDK & HK52 & HJ & ->).
  fold n in HK52, HJ.
  pose proof (Zdigits2_bounds (Z.pos mc) eq_refl) as Hbc.
  rewrite Hmc in Hbc. change (2 ^ (53 - 1)) with (2 ^ 52) in Hbc.
  set (Sc := 2 ^ (- ec)) in *.
  assert (2 ^ 53 ≤ Sc) as HSc by (apply Z.pow_le_mono_r; lia).
  set (c := Z.pos mc) in *.
  set (X := n * W * c) in *.
  set (E := n * p / 100).
  assert (100 * E ≤ n * p < 100 * E + 100) as HE.
  { pose proof (Z.div_mod (n * p) 100 ltac:(lia)).
    pose proof (Z.mod_pos_bound (n * p) 100 ltac:(lia)). fold E in H. lia. }
  set (Q := X / K) in *.
  assert (K * Q ≤ X < K * Q + K) as HQ.
  { pose proof (Z.div_mod X K ltac:(lia)).
    pose proof (Z.mod_pos_bound X K ltac:(lia)). fold Q in H. lia. }
  assert (0 < n * W) as HnW by nia.
  assert (K < 2 * (n * W)) as HKnW.
  { assert (X < n * W * 2 ^ 53) by (unfold X; nia). lia. }
  assert (0 ≤ Q) as HQ0 by (apply Z.div_pos; unfold X; nia).
  assert (100 * X = n * W * (100 * c)) as HX100 by (unfold X; lia).
  assert (n * W * (p * Sc - 50) ≤ 100 * X ≤ n * W * (p * Sc + 50)) as HXpS.
  { rewrite HX100. split; apply Z.mul_le_mono_nonneg_l; lia. }
  assert (250 * (n * W) < W * Sc) as Hbig by nia.
  assert (J / D ≤ E) as Hupper.
  { apply Z.lt_succ_r. apply Z.div_lt_upper_bound; [lia|].
    assert (J * K < D * K * Z.succ E); [|nia].
    rewrite HDK.
    assert (J * K ≤ X + K) by nia.
    assert (100 * (X + K) < W * Sc * (n * p + 1)); [|nia].
    nia. }
  assert (0 ≤ J / D) as H0 by (apply Z.div_pos; lia).
  assert (∀ t, W * Sc * (100 * t) ≤ 100 * X → t ≤ J / D) as Hlower.
  { intros t Ht. apply Z.div_le_lower_bound; [lia|].
    assert (D * t ≤ Q); [|lia].
    apply Z.div_le_lower_bound; [lia|].
    replace (K * (D * t)) with (W * Sc * t) by (rewrite <- HDK; lia). lia. }
  exists (J / D). repeat split; try done.
  - apply Hlower. nia.
  - intros Hmod. apply Z.le_antisymm; [done|]. apply Hlower.
    assert (100 * E + 1 ≤ n * p); [|nia].
    pose proof (Z.div_mod (n * p) 100 ltac:(lia)).
    pose proof (Z.mod_pos_bound (n * p) 100 ltac:(lia)). fold E in H. lia.
Qed.
End double_rounding.

(** ** Sets and sorting of break values *)

Global Instance cmp_le_total : Total cmp_le.
Proof. intros [x|] [y|]; simpl; auto. lia. Qed.

Lemma foldl_Set_add_length acc xs :
  length (foldl Set_add acc xs) ≤ length acc + length xs.
Proof.
  revert acc. induction xs as [|x xs IH]; intros acc; simpl; [lia|].
  etrans; [apply IH|]. unfold Set_add.
  destruct (decide _); rewrite ?length_app; simpl; lia.
Qed.

Lemma Set_of_length xs : length (Set_of xs) ≤ length xs.
Proof. apply (foldl_Set_add_length [] xs). Qed.

Lemma quantileBreaksOf_length allMedalCounts :
  length (quantileBreaksOf allMedalCounts) ≤ 8.
Proof.
  unfold quantileBreaksOf.
  rewrite (Permutation_length (merge_sort_Permutation _ _)).
  etrans; [apply Set_of_length|].
  unfold selectBreaks. by rewrite length_fmap.
Qed.

(** The order in which the totals were pushed does not matter. *)
Lemma quantileBreaksOf_Permutation (counts1 counts2 : list Z) :
  counts1 ≡ₚ counts2 → quantileBreaksOf counts1 = quantileBreaksOf counts2.
Proof.
  intros Hperm. unfold quantileBreaksOf.
  assert (merge_sort Z.le counts1 = merge_sort Z.le counts2) as ->; [|done].
  apply (StronglySorted_unique Z.le);
    [apply StronglySorted_merge_sort; apply _..|].
  by rewrite !merge_sort_Permutation.
Qed.

(** Deduplicating an ascending run of integers leaves a strictly ascending
    one. *)
Lemma foldl_Set_add_ascending (acc vals : list Z) :
  StronglySorted Z.lt acc →
  StronglySorted Z.le vals →
  (∀ a v, a ∈ acc → v ∈ vals → (a ≤ v)%Z) →
  ∃ breaks,
    foldl Set_add (Int <$> acc) (Int <$> vals) = Int <$> breaks
    ∧ StronglySorted Z.lt breaks
    ∧ (∀ b, b ∈ breaks → b ∈ acc ∨ b ∈ vals).
Proof.
  revert acc. induction vals as [|v vals IH]; intros acc Hacc Hvals Hle.
  { exists acc. simpl. auto. }
  apply StronglySorted_cons in Hvals as [Hv Hvals].
  rewrite Forall_forall in Hv.
  simpl. unfold Set_add at 2.
  destruct (decide (Int v ∈ Int <$> acc)) as [Hin|Hnin].
  - destruct (IH acc) as (breaks & Heq & Hs & Hsub); [done|done| |].
    { intros a x Ha Hx. apply Hle; [done|by right]. }
    exists breaks. split_and!; [done|done|].
    intros b Hb. destruct (Hsub b Hb); [by left|right; by right].
  - assert (v ∉ acc) as Hv' by (intros ?; apply Hnin; by apply list_elem_of_fmap_2).
    replace ((Int <$> acc) ++ [Int v]) with (Int <$> (acc ++ [v]))
      by (by rewrite fmap_app).
    destruct (IH (acc ++ [v])) as (breaks & Heq & Hs & Hsub); [|done| |].
    + apply StronglySorted_app_2; [|done|repeat constructor].
      intros a x Ha Hx%list_elem_of_singleton. subst x.
      assert (a ≤ v)%Z by (apply Hle; [done|by left]).
      assert (a ≠ v) by (by intros ->). lia.
    + intros a x [Ha|Ha%list_elem_of_singleton]%elem_of_app Hx.
      * apply Hle; [done|by right].
      * subst a. by apply Hv.
    + exists breaks. split_and!; [done|done|].
      intros b Hb.
      destruct (Hsub b Hb) as [[?|Hbv%list_elem_of_singleton]%elem_of_app|?];
        [by left|subst b; right; by left|right; by right].
Qed.

Lemma Set_of_ascending (vals : list Z) :
  StronglySorted Z.le vals →
  ∃ breaks,
    Set_of (Int <$> vals) = Int <$> breaks
    ∧ StronglySorted Z.lt breaks
    ∧ (∀ b, b ∈ breaks → b ∈ vals).
Proof.
  intros Hvals.
  destruct (foldl_Set_add_ascending [] vals) as (breaks & Heq & Hs & Hsub);
    [constructor|done|by intros ?? ?%elem_of_nil|].
  exists breaks. split_and!; [done|done|].
  intros b Hb. by destruct (Hsub b Hb) as [?%elem_of_nil|?].
Qed.

(** Sorting with [(a, b) => a - b] leaves an ascending array of integers
    as it is. *)
Lemma merge_sort_ascending (breaks : list Z) :
  StronglySorted Z.lt breaks →
  merge_sort cmp_le (Int <$> breaks) = Int <$> breaks.
Proof.
  intros Hs.
  pose proof (merge_sort_Permutation cmp_le (Int <$> breaks)) as Hperm.
  pose proof (Sorted_merge_sort cmp_le (Int <$> breaks)) as Hsorted.
  set (M := merge_sort cmp_le (Int <$> breaks)) in *.
  assert (Forall (λ x, ∃ z, x = Int z) M) as Hint.
  { rewrite Hperm. apply Forall_fmap, Forall_forall. intros z _. by exists z. }
  assert (StronglySorted cmp_le M) as HM.
  { clear Hperm. induction Hsorted as [|x l Hl IH Hhd]; [constructor|].
    apply Forall_cons in Hint as [[z ->] Hint].
    specialize (IH Hint). constructor; [done|].
    destruct Hhd as [|y l Hxy]; [constructor|].
    apply StronglySorted_cons in IH as [Hy _].
    apply Forall_cons in Hint as [[zy ->] Hint].
    constructor; [done|].
    rewrite Forall_forall in Hy, Hint |- *. intros w Hw.
    destruct (Hint w Hw) as [zw ->]. specialize (Hy _ Hw).
    simpl in *. lia. }
  apply (StronglySorted_unique_strong cmp_le); [|done| |done].
  - intros x1 x2 Hx1 Hx2 H12 H21.
    rewrite Forall_forall in Hint. destruct (Hint x1 Hx1) as [z1 ->].
    apply list_elem_of_fmap in Hx2 as (z2 & -> & _).
    simpl in *. f_equal. lia.
  - apply (StronglySorted_fmap _ Z.lt); [|done]. simpl. lia.
Qed.

(** ** The selected ranks *)

Local Open Scope Z_scope.

Lemma percents_range : Forall (λ p, 15 ≤ p ≤ 99) percents.
Proof. unfold percents. repeat constructor; lia. Qed.

Lemma percents_ascending : StronglySorted Z.lt percents.
Proof. unfold percents. repeat constructor; lia. Qed.

Lemma rank_indices_gen (len : nat) ps cs :
  0 < Z.of_nat len < 2 ^ 32 →
  Forall (λ p, 15 ≤ p ≤ 99) ps →
  Forall2 nearest_percent ps cs →
  ∃ indices,
    Forall2 (λ c i, rankIndex len c = Some i) cs indices
    ∧ Forall2 (index_near (Z.of_nat len)) ps indices.
Proof.
  intros Hn Hps Hcs. induction Hcs as [|p c ps cs Hpc _ IH].
  { exists []. split; constructor. }
  apply Forall_cons in Hps as [Hp Hps].
  destruct (IH Hps) as (indices & Hr & Hi).
  destruct (rankIndex_floor len p c Hn Hp Hpc) as (i & Hri & Hi0 & Hib & Hie).
  exists (i :: indices). split; constructor; done.
Qed.

Lemma index_near_lt n p i : 0 < n → p ≤ 99 → index_near n p i → i < n.
Proof.
  intros Hn Hp (_ & [_ Hi] & _).
  assert (n * p / 100 < n); [|lia].
  apply Z.div_lt_upper_bound; nia.
Qed.

Lemma index_near_mono n p1 p2 i1 i2 :
  0 < n → 0 ≤ p1 < p2 →
  index_near n p1 i1 → index_near n p2 i2 → i1 ≤ i2.
Proof.
  intros Hn Hp (_ & [_ Hi1] & _) (_ & [Hi2 _] & Hex).
  assert (n * p1 / 100 ≤ n * p2 / 100) as HE by (apply Z.div_le_mono; nia).
  destruct (decide ((n * p2) mod 100 = 0)) as [Hmod|Hmod];
    [|specialize (Hex Hmod); lia].
  destruct (decide (n * p1 / 100 < n * p2 / 100)); [lia|].
  exfalso.
  pose proof (Z.div_mod (n * p2) 100 ltac:(lia)) as Hdm.
  pose proof (Z.mul_div_le (n * p1) 100 ltac:(lia)).
  nia.
Qed.

Lemma indices_ascending n ps indices :
  0 < n → Forall (λ p, 15 ≤ p ≤ 99) ps → StronglySorted Z.lt ps →
  Forall2 (index_near n) ps indices →
  StronglySorted Z.le indices ∧ Forall (λ i, 0 ≤ i < n) indices.
Proof.
  intros Hn Hps Hs Hi.
  induction Hi as [|p i ps indices Hpi Hrest IH]; [by split; constructor|].
  apply StronglySorted_cons in Hs as [Hlt Hs].
  apply Forall_cons in Hps as [Hp Hps].
  destruct (IH Hps Hs) as [IHs IHr]. split.
  - constructor; [done|].
    eapply Forall2_Forall_r; [exact Hrest|].
    rewrite Forall_forall in Hlt, Hps |- *. intros p' Hp' i' Hi'.
    specialize (Hlt _ Hp'). eapply (index_near_mono n p p'); eauto. lia.
  - constructor; [|done]. split; [apply Hpi|].
    eapply index_near_lt; eauto. lia.
Qed.

(** ** Reading the sorted array *)

Lemma StronglySorted_lookup_le (l : list Z) (i j : nat) x y :
  StronglySorted Z.le l → (i ≤ j)%nat →
  l !! i = Some x → l !! j = Some y → x ≤ y.
Proof.
  intros Hs. revert i j. induction Hs as [|a l Hl IH Ha]; intros i j Hij Hx Hy.
  { by rewrite lookup_nil in Hx. }
  destruct i as [|i], j as [|j]; simpl in *; simplify_eq; try lia.
  - rewrite Forall_forall in Ha. apply Ha. by eapply list_elem_of_lookup_2.
  - eapply IH; [|done..]. lia.
Qed.

Lemma select_values (sorted : list Z) cs indices :
  Forall2 (λ c i, rankIndex (length sorted) c = Some i) cs indices →
  Forall (λ i, 0 ≤ i < Z.of_nat (length sorted)) indices →
  ∃ values,
    Forall2 (λ i v, sorted !! Z.to_nat i = Some v) indices values
    ∧ (λ c, Math_ceil (element sorted (rankIndex (length sorted) c))) <$> cs
      = Int <$> values.
Proof.
  intros Hr Hi. induction Hr as [|c i cs indices Hci _ IH].
  { exists []. split; [constructor|done]. }
  apply Forall_cons in Hi as [Hi0 Hi].
  destruct (IH Hi) as (values & Hv & Heq).
  destruct (lookup_lt_is_Some_2 sorted (Z.to_nat i)) as [v Hlook]; [lia|].
  exists (v :: values). split; [by constructor|].
  csimpl. rewrite Heq, Hci. unfold element.
  rewrite decide_True by lia. by rewrite Hlook.
Qed.

Lemma values_ascending (sorted : list Z) indices values :
  StronglySorted Z.le sorted →
  StronglySorted Z.le indices → Forall (λ i, 0 ≤ i) indices →
  Forall2 (λ i v, sorted !! Z.to_nat i = Some v) indices values →
  StronglySorted Z.le values.
Proof.
  intros Hsorted Hs Hnn Hv.
  induction Hv as [|i v indices values Hiv Hrest IH]; [constructor|].
  apply StronglySorted_cons in Hs as [Hle Hs].
  apply Forall_cons in Hnn as [Hi Hnn].
  constructor; [by apply IH|].
  eapply Forall2_Forall_r; [exact Hrest|].
  rewrite Forall_forall in Hle, Hnn |- *. intros i' Hi' v' Hv'.
  eapply (StronglySorted_lookup_le sorted (Z.to_nat i) (Z.to_nat i'));
    eauto.
  specialize (Hle _ Hi'). specialize (Hnn _ Hi'). lia.
Qed.

(** ** The break set of a non-empty distribution *)

Lemma quantileBreaksOf_spec (allMedalCounts : list Z) :
  allMedalCounts ≠ [] →
  Z.of_nat (length allMedalCounts) < 2 ^ 32 →
  ∃ indices values breaks,
    Forall2 (λ c i, rankIndex (length allMedalCounts) c = Some i)
      fractions indices
    ∧ Forall2 (index_near (Z.of_nat (length allMedalCounts))) percents indices
    ∧ Forall (λ i, 0 ≤ i < Z.of_nat (length allMedalCounts)) indices
    ∧ Forall2 (λ i v, merge_sort Z.le allMedalCounts !! Z.to_nat i = Some v)
        indices values
    ∧ selectBreaks (merge_sort Z.le allMedalCounts) = Int <$> values
    ∧ Set_of (Int <$> values) = Int <$> breaks
    ∧ quantileBreaksOf allMedalCounts = Int <$> breaks
    ∧ StronglySorted Z.lt breaks
    ∧ (∀ b, b ∈ breaks → b ∈ allMedalCounts).
Proof.
  intros Hne Hlen.
  set (sorted := merge_sort Z.le allMedalCounts).
  assert (sorted ≡ₚ allMedalCounts) as Hperm by apply merge_sort_Permutation.
  assert (length sorted = length allMedalCounts) as Hlen'
    by (by rewrite Hperm).
  assert (0 < Z.of_nat (length allMedalCounts)) as Hpos
    by (destruct allMedalCounts; [done|simpl; lia]).
  destruct (rank_indices_gen (length allMedalCounts) percents fractions)
    as (indices & Hrank & Hnear);
    [lia|apply percents_range|apply fractions_nearest|].
  destruct (indices_ascending _ _ _ Hpos percents_range percents_ascending
              Hnear) as [Hasc Hrange].
  destruct (select_values sorted fractions indices) as (values & Hval & Hsel).
  { by rewrite Hlen'. }
  { by rewrite Hlen'. }
  assert (StronglySorted Z.le values) as Hvs.
  { eapply (values_ascending sorted indices); [|done| |done].
    - apply StronglySorted_merge_sort; apply _.
    - eapply Forall_impl; [exact Hrange|]. simpl. lia. }
  destruct (Set_of_ascending values Hvs) as (breaks & Hset & Hbs & Hsub).
  exists indices, values, breaks. split_and!; try done.
  - unfold quantileBreaksOf. fold sorted. unfold selectBreaks.
    rewrite Hsel, Hset. by apply merge_sort_ascending.
  - intros b Hb. rewrite <- Hperm.
    apply Hsub in Hb. apply list_elem_of_lookup in Hb as [j Hj].
    destruct (Forall2_lookup_r _ _ _ _ _ Hval Hj) as (i & _ & Hi).
    by eapply list_elem_of_lookup_2.
Qed.

(** ** The break scan *)

Lemma firstBreak_bound count i breaks j :
  firstBreak count i breaks = Some j → (i ≤ j < i + length breaks)%nat.
Proof.
  revert i.
  induction breaks as [|b breaks IH]; intros i; cbn [firstBreak length];
    [done|].
  destruct (js_leb count b).
  - intros [= <-]. lia.
  - intros Hj%IH. lia.
Qed.

Lemma bucketIndex_bound breaks count :
  (length breaks ≤ 8)%nat → (bucketIndex breaks count ≤ 8)%nat.
Proof.
  intros Hlen. unfold bucketIndex.
  destruct (firstBreak count 0 breaks) as [j|] eqn:Hj; simpl; [|lia].
  apply firstBreak_bound in Hj. lia.
Qed.

Lemma js_leb_trans x y b : x ≤ y → js_leb (Int y) b = true → js_leb (Int x) b = true.
Proof.
  destruct b as [z|]; simpl; [|done].
  rewrite !bool_decide_eq_true. lia.
Qed.

Lemma firstBreak_mono x y i breaks j :
  x ≤ y → firstBreak (Int y) i breaks = Some j →
  ∃ j', firstBreak (Int x) i breaks = Some j' ∧ (j' ≤ j)%nat.
Proof.
  intros Hxy. revert i.
  induction breaks as [|b breaks IH]; intros i; cbn [firstBreak]; [done|].
  destruct (js_leb (Int y) b) eqn:Hy.
  - intros [= <-]. rewrite (js_leb_trans x y b Hxy Hy). eauto.
  - intros Hj. destruct (js_leb (Int x) b).
    + apply firstBreak_bound in Hj. exists i. split; [done|lia].
    + by apply IH.
Qed.

Lemma bucketIndex_mono breaks x y :
  (length breaks ≤ 8)%nat → x ≤ y →
  (bucketIndex breaks (Int x) ≤ bucketIndex breaks (Int y))%nat.
Proof.
  intros Hlen Hxy. unfold bucketIndex at 2.
  destruct (firstBreak (Int y) 0 breaks) as [j|] eqn:Hj.
  - destruct (firstBreak_mono x y 0 breaks j Hxy Hj) as (j' & Hj' & Hle).
    unfold bucketIndex. by rewrite Hj'.
  - by apply bucketIndex_bound.
Qed.

(** A total equal to a break of a strictly ascending set stops the scan
    at that break. *)
Lemma firstBreak_tie (breaks : list Z) k (i : nat) b :
  StronglySorted Z.lt breaks → breaks !! i = Some b →
  firstBreak (Int b) k (Int <$> breaks) = Some (k + i)%nat.
Proof.
  intros Hs. revert k i.
  induction Hs as [|a breaks Hs IH Ha]; intros k i Hi.
  { by rewrite lookup_nil in Hi. }
  rewrite fmap_cons. cbn [firstBreak js_leb].
  destruct i as [|i]; simpl in Hi.
  - simplify_eq. rewrite bool_decide_true by lia. f_equal. lia.
  - rewrite Forall_forall in Ha.
    assert (a < b) by (apply Ha; by eapply list_elem_of_lookup_2).
    rewrite bool_decide_false by lia.
    rewrite (IH (S k) i Hi). f_equal. lia.
Qed.

Lemma firstBreak_above (breaks : list Z) k x :
  (∀ b, b ∈ breaks → b < x) →
  firstBreak (Int x) k (Int <$> breaks) = None.
Proof.
  revert k. induction breaks as [|a breaks IH]; intros k Hx; [done|].
  rewrite fmap_cons. cbn [firstBreak js_leb]. rewrite bool_decide_false.
  - apply IH. intros b Hb. apply Hx. by right.
  - assert (a < x) by (apply Hx; by left). lia.
Qed.

Lemma getColor_number breaks z :
  z ≠ 0 →
  getColorForMedalCount breaks (Num (Int z))
  = COLOR_PALETTE.colors !! bucketIndex breaks (Int z).
Proof. intros Hz. destruct z; done. Qed.

Lemma palette_lookup (i : nat) :
  (i ≤ 8)%nat →
  ∃ color, COLOR_PALETTE.colors !! i = Some color
           ∧ color ∈ COLOR_PALETTE.colors.
Proof.
  intros Hi.
  destruct (lookup_lt_is_Some_2 COLOR_PALETTE.colors i) as [color Hc].
  { simpl. lia. }
  exists color. split; [done|]. by eapply list_elem_of_lookup_2.
Qed.

Lemma collectMedalCounts_positive medalData :
  Forall (λ total, 0 < total) (collectMedalCounts medalData).
Proof.
  unfold collectMedalCounts. apply Forall_forall. intros t Ht.
  apply list_elem_of_bind in Ht as (year & Ht & _).
  by apply list_elem_of_filter in Ht as [? _].
Qed.

(** ** QuantileClassifier: the claims *)

(** C1, as stated, fails for negative totals: with the breaks of the
    worked distribution, [-1] gets the lightest palette colour. *)
Lemma negative_total_is_classified :
  getColorForMedalCount (quantileBreaksOf example_distribution)
    (Num (Int (-1))) = Some "#fff7ec"
  ∧ Some "#fff7ec" ≠ Some COLOR_PALETTE.noData.
Proof. split; [vm_compute; reflexivity|discriminate]. Qed.

(** C1, amended. For every break set, a total that is zero, [null] or
    [undefined] gets the "no data" colour.  A negative total is not
    singled out: it is scanned like any other number, and gets the lightest
    palette colour as soon as the first break is not negative. *)
Theorem no_data_color (quantileBreaks : list number) :
  getColorForMedalCount quantileBreaks (Num (Int 0))
    = Some COLOR_PALETTE.noData
  ∧ getColorForMedalCount quantileBreaks Null = Some COLOR_PALETTE.noData
  ∧ getColorForMedalCount quantileBreaks Undefined
    = Some COLOR_PALETTE.noData
  ∧ (∀ z b rest,
       z < 0 → 0 ≤ b → quantileBreaks = Int b :: rest →
       getColorForMedalCount quantileBreaks (Num (Int z)) = Some "#fff7ec").
Proof.
  split_and!; try reflexivity.
  intros z b rest Hz Hb ->. rewrite getColor_number by lia.
  unfold bucketIndex. cbn [firstBreak js_leb].
  by rewrite bool_decide_true by lia.
Qed.

Lemma no_data_color_witness :
  getColorForMedalCount [Int 2; Int 3] (Num (Int 0))
    = Some COLOR_PALETTE.noData
  ∧ getColorForMedalCount [Int 2; Int 3] (Num (Int (-4))) = Some "#fff7ec".
Proof.
  destruct (no_data_color [Int 2; Int 3]) as (H0 & _ & _ & Hneg).
  split; [exact H0|].
  apply (Hneg (-4) 2 [Int 3]); [lia|lia|reflexivity].
Defined.

(** C2, as stated, fails: with no positive total at all the break set is
    the single value [NaN], not the empty set, and a positive total is then
    given the darkest colour, not "no data". *)
Lemma empty_distribution_breaks :
  collectMedalCounts ∅ = []
  ∧ calculateQuantileBreaks ∅ = [NaN]
  ∧ getColorForMedalCount (calculateQuantileBreaks ∅) (Num (Int 5))
    = Some "#7f0000".
Proof. vm_compute. done. Qed.

(** C2, amended. If no total is positive, [calculateQuantileBreaks]
    yields the one-element break set [NaN]; every classification query
    then still returns a colour: "no data" for zero, [null] and
    [undefined], the darkest palette colour for every other total. *)
Theorem empty_distribution (medalData : UnifiedYearTable) :
  collectMedalCounts medalData = [] →
  calculateQuantileBreaks medalData = [NaN]
  ∧ ∀ count,
      getColorForMedalCount (calculateQuantileBreaks medalData) count
      = Some match count with
             | Num (Int Z0) | Null | Undefined => COLOR_PALETTE.noData
             | Num _ => "#7f0000"
             end.
Proof.
  intros Hempty. unfold calculateQuantileBreaks. rewrite Hempty.
  assert (quantileBreaksOf [] = [NaN]) as -> by (vm_compute; reflexivity).
  split; [done|]. by intros [[[| |]|]| |].
Qed.

Lemma empty_distribution_witness :
  calculateQuantileBreaks ∅ = [NaN]
  ∧ ∀ count,
      getColorForMedalCount (calculateQuantileBreaks ∅) count
      = Some match count with
             | Num (Int Z0) | Null | Undefined => COLOR_PALETTE.noData
             | Num _ => "#7f0000"
             end.
Proof. apply (empty_distribution ∅). vm_compute. reflexivity. Defined.

(** The worked example of the specification. *)
Example example_breaks :
  rankIndex 10 <$> fractions = Some <$> [1; 3; 5; 7; 8; 9; 9; 9]
  ∧ merge_sort Z.le example_distribution !! 1%nat = Some 2
  ∧ quantileBreaksOf example_distribution = Int <$> [2; 3; 8; 21; 34; 55].
Proof. vm_compute. done. Qed.

(** C5, as stated, fails: for 90 values the literal [0.70] selects index
    62, not [floor (0.70 × 90) = 63], because the double product
    [90 * 0.7] lies just below 63; the break sets differ. *)
Lemma rank_index_below_exact_floor :
  rankIndex 90 <$> fractions = Some <$> [13; 31; 49; 62; 73; 81; 86; 89]
  ∧ spec_rankIndex 90 <$> percents = [13; 31; 49; 63; 73; 81; 86; 89]
  ∧ quantileBreaksOf (seqZ 1 90)
    = Int <$> [14; 32; 50; 63; 74; 82; 87; 90]
  ∧ spec_quantileBreaksOf (seqZ 1 90)
    = Int <$> [14; 32; 50; 64; 74; 82; 87; 90].
Proof. vm_compute. done. Qed.

(** C5, amended. For every non-empty distribution (of fewer than 2^32
    values, the limit of an array) [quantileBreaksOf] sorts the totals
    ascending, selects for each of the 8 literals the value at the index
    [Math.floor(length * literal)] evaluated in double precision, and
    removes duplicates keeping the order.  That index lies inside the
    array; it is the exact [floor (p/100 × N)] whenever [p × N] is not a
    multiple of 100, and that or one less otherwise.  The resulting break
    set is strictly ascending with at most 8 entries, all taken from the
    distribution.  On [1,2,2,3,5,8,13,21,34,55] the literal [0.15] selects
    index 1, value 2. *)
Theorem quantile_breaks_construction :
  (∀ allMedalCounts : list Z,
     allMedalCounts ≠ [] →
     Z.of_nat (length allMedalCounts) < 2 ^ 32 →
     let sorted := merge_sort Z.le allMedalCounts in
     let n := Z.of_nat (length allMedalCounts) in
     Sorted Z.le sorted ∧ sorted ≡ₚ allMedalCounts
     ∧ ∃ indices values breaks,
         Forall2 (λ c i, rankIndex (length sorted) c = Some i)
           fractions indices
         ∧ Forall2 (λ p i,
                      0 ≤ i < n
                      ∧ spec_rankIndex n p - 1 ≤ i ≤ spec_rankIndex n p
                      ∧ ((n * p) mod 100 ≠ 0 → i = spec_rankIndex n p))
             percents indices
         ∧ Forall2 (λ i v, sorted !! Z.to_nat i = Some v) indices values
         ∧ Set_of (Int <$> values) = Int <$> breaks
         ∧ quantileBreaksOf allMedalCounts = Int <$> breaks
         ∧ StronglySorted Z.lt breaks
         ∧ (length breaks ≤ 8)%nat
         ∧ (∀ b, b ∈ breaks → b ∈ allMedalCounts))
  ∧ (rankIndex (length example_distribution) <$> fractions !! 0%nat
       = Some (Some 1)
     ∧ merge_sort Z.le example_distribution !! 1%nat = Some 2).
Proof.
  split; [|vm_compute; done].
  intros allMedalCounts Hne Hlen sorted n.
  assert (sorted ≡ₚ allMedalCounts) as Hperm by apply merge_sort_Permutation.
  assert (length sorted = length allMedalCounts) as Hlen'
    by (by rewrite Hperm).
  split_and!; [apply Sorted_merge_sort; apply _|done|].
  destruct (quantileBreaksOf_spec allMedalCounts Hne Hlen)
    as (indices & values & breaks
        & Hrank & Hnear & Hrange & Hval & _ & Hset & Hq & Hs & Hsub).
  exists indices, values, breaks. rewrite Hlen'.
  split_and!; try done.
  - apply Forall2_same_length_lookup. split.
    { by eapply Forall2_length. }
    intros j p i Hp Hi.
    rewrite Forall_forall in Hrange.
    destruct (Forall2_lookup_lr _ _ _ _ _ _ Hnear Hp Hi) as (_ & Hb & Hex).
    assert (0 ≤ i < n) as Hin
      by (apply Hrange; by eapply list_elem_of_lookup_2).
    unfold spec_rankIndex. fold n in Hb, Hex.
    split; [exact Hin|]. split; [exact Hb|exact Hex].
  - rewrite <- (length_fmap Int), <- Hq. apply quantileBreaksOf_length.
Qed.

Lemma quantile_breaks_construction_witness :
  ∃ indices values breaks,
    Forall2 (λ c i, rankIndex (length (merge_sort Z.le [3; 1; 2])) c = Some i)
      fractions indices
    ∧ Forall2 (λ i v, merge_sort Z.le [3; 1; 2] !! Z.to_nat i = Some v)
        indices values
    ∧ quantileBreaksOf [3; 1; 2] = Int <$> breaks
    ∧ StronglySorted Z.lt breaks.
Proof.
  destruct quantile_breaks_construction as [Hgen _].
  destruct (Hgen [3; 1; 2]) as (_ & _ & indices & values & breaks & H);
    [discriminate|vm_compute; reflexivity|].
  exists indices, values, breaks. tauto.
Defined.

(** C6. For the break set of a non-empty distribution and positive totals
    [x ≤ y], the palette index used for [x] is at most the one used for
    [y]; a total equal to a break gets the bucket of that very break; and
    a total above every break gets the last, darkest colour. *)
Theorem bucket_is_monotone (allMedalCounts : list Z) :
  allMedalCounts ≠ [] →
  Z.of_nat (length allMedalCounts) < 2 ^ 32 →
  let quantileBreaks := quantileBreaksOf allMedalCounts in
  (∀ x y,
     0 < x ≤ y →
     getColorForMedalCount quantileBreaks (Num (Int x))
       = COLOR_PALETTE.colors !! bucketIndex quantileBreaks (Int x)
     ∧ getColorForMedalCount quantileBreaks (Num (Int y))
       = COLOR_PALETTE.colors !! bucketIndex quantileBreaks (Int y)
     ∧ (bucketIndex quantileBreaks (Int x)
        ≤ bucketIndex quantileBreaks (Int y) ≤ 8)%nat)
  ∧ (∀ (i : nat) b,
       quantileBreaks !! i = Some (Int b) →
       bucketIndex quantileBreaks (Int b) = i)
  ∧ (∀ x,
       0 < x → (∀ b, Int b ∈ quantileBreaks → b < x) →
       getColorForMedalCount quantileBreaks (Num (Int x)) = Some "#7f0000"
       ∧ last COLOR_PALETTE.colors = Some "#7f0000").
Proof.
  intros Hne Hlen quantileBreaks.
  destruct (quantileBreaksOf_spec allMedalCounts Hne Hlen)
    as (_ & _ & breaks & _ & _ & _ & _ & _ & _ & Hq & Hs & _).
  pose proof (quantileBreaksOf_length allMedalCounts) as Hlen8.
  fold quantileBreaks in Hq, Hlen8.
  split_and!.
  - intros x y [Hx Hxy]. rewrite !getColor_number by lia.
    split_and!; [done|done| |by apply bucketIndex_bound].
    by apply bucketIndex_mono.
  - intros i b Hi. rewrite Hq in Hi |- *.
    apply list_lookup_fmap_Some in Hi as (b' & [= <-] & Hb).
    unfold bucketIndex. by rewrite (firstBreak_tie breaks 0 i b Hs Hb).
  - intros x Hx Habove. rewrite getColor_number by lia.
    split; [|reflexivity].
    unfold bucketIndex. rewrite Hq, firstBreak_above; [reflexivity|].
    intros b Hb. apply Habove. rewrite Hq. by apply list_elem_of_fmap_2.
Qed.

Lemma bucket_is_monotone_witness :
  (bucketIndex (quantileBreaksOf example_distribution) (Int 3)
   ≤ bucketIndex (quantileBreaksOf example_distribution) (Int 20) ≤ 8)%nat
  ∧ bucketIndex (quantileBreaksOf example_distribution) (Int 8) = 2%nat
  ∧ getColorForMedalCount (quantileBreaksOf example_distribution)
      (Num (Int 60)) = Some "#7f0000".
Proof.
  destruct (bucket_is_monotone example_distribution)
    as (Hmono & Htie & Habove);
    [discriminate|vm_compute; reflexivity|].
  split; [|split].
  - apply (Hmono 3 20). lia.
  - apply (Htie 2%nat 8). vm_compute. reflexivity.
  - apply (Habove 60); [lia|].
    intros b Hb.
    assert (quantileBreaksOf example_distribution
            = Int <$> [2; 3; 8; 21; 34; 55]) as Hq
      by (vm_compute; reflexivity).
    rewrite Hq in Hb. apply list_elem_of_fmap in Hb as (b' & [= ->] & Hb').
    repeat (apply elem_of_cons in Hb' as [->|Hb']; [lia|]).
    by apply elem_of_nil in Hb'.
Defined.

(** ** YearResolver: the claim *)

(** C7. For each of the cancelled years 1916, 1940 and 1944 and every
    unified table, whatever it holds for that year, the answer is
    [{cancelled: true, hasSummer: false, hasWinter: false}]. *)
Theorem cancelled_year_takes_precedence
    (medalData : UnifiedYearTable) (year : Z) :
  year = 1916 ∨ year = 1940 ∨ year = 1944 →
  getOlympicsForYear medalData year = Olympics true false false.
Proof.
  intros Hyear. unfold getOlympicsForYear.
  rewrite bool_decide_true; [done|].
  unfold cancelledYears. rewrite !elem_of_cons. tauto.
Qed.

Lemma cancelled_year_takes_precedence_witness :
  getOlympicsForYear stray_1940 1940 = Olympics true false false.
Proof. apply cancelled_year_takes_precedence. right. left. reflexivity. Defined.

(** The same entries under a year that was not cancelled are seen. *)
Example stray_entries_seen_elsewhere :
  getOlympicsForYear {[ "1936" := {[ "DE" := stray_entry ]} ]} 1936
  = Olympics false true false.
Proof. vm_compute. reflexivity. Qed.

(** ** The palette is never overrun *)

(** C10. For every unified table and every integer total, the break set
    has at most 8 entries, the palette has 9 colours, and
    [getColorForMedalCount] returns a colour: "no data" or one of the
    palette. *)
Theorem color_is_always_defined (medalData : UnifiedYearTable) (z : Z) :
  (length (calculateQuantileBreaks medalData) ≤ 8)%nat
  ∧ length COLOR_PALETTE.colors = 9%nat
  ∧ ∃ color,
      getColorForMedalCount (calculateQuantileBreaks medalData) (Num (Int z))
        = Some color
      ∧ (color = COLOR_PALETTE.noData ∨ color ∈ COLOR_PALETTE.colors).
Proof.
  pose proof (quantileBreaksOf_length (collectMedalCounts medalData)) as Hlen.
  fold (calculateQuantileBreaks medalData) in Hlen.
  split_and!; [done|reflexivity|].
  destruct (decide (z = 0)) as [->|Hz].
  - exists COLOR_PALETTE.noData. split; [reflexivity|by left].
  - rewrite getColor_number by done.
    destruct (palette_lookup
                (bucketIndex (calculateQuantileBreaks medalData) (Int z)))
      as (color & Hc & Hin); [by apply bucketIndex_bound|].
    exists color. split; [done|by right].
Qed.

(** * The presentation code: properties *)

(** ** One-season entries *)

(** X1. A country that only the Summer table lists for a year is copied
    verbatim and tagged "summer". *)
Theorem summer_only_is_copied
    (summerMedals winterMedals : SeasonYearTable) (year isoCode : string)
    (summerData : gmap string Season.entry) (s : Season.entry) :
  summerMedals !! year = Some summerData →
  summerData !! isoCode = Some s →
  yearData winterMedals year !! isoCode = None →
  buildUnifiedMedalData summerMedals winterMedals !! year ≫= (.!! isoCode)
  = Some (Unified.Entry (Season.gold s) (Season.silver s) (Season.bronze s)
            (Season.historical s) (Season.display_name s)
            None (Some "summer")).
Proof.
  intros Hy Hs Hw. rewrite unified_entry, Hw.
  unfold yearData. rewrite Hy. simpl. by rewrite Hs.
Qed.

Lemma summer_only_is_copied_witness :
  buildUnifiedMedalData summer_1992 ∅ !! "1992" ≫= (.!! "DE")
  = Some (Unified.Entry 33 21 28 false (Some "Germany") None (Some "summer")).
Proof.
  apply (summer_only_is_copied summer_1992 ∅ "1992" "DE"
           {[ "DE" := germany_summer_1992 ]} germany_summer_1992).
  - apply lookup_singleton_eq.
  - apply lookup_singleton_eq.
  - reflexivity.
Defined.

(** X2. A country that only the Winter table lists for a year is copied
    verbatim and tagged "winter". *)
Theorem winter_only_is_copied
    (summerMedals winterMedals : SeasonYearTable) (year isoCode : string)
    (winterData : gmap string Season.entry) (w : Season.entry) :
  winterMedals !! year = Some winterData →
  winterData !! isoCode = Some w →
  yearData summerMedals year !! isoCode = None →
  buildUnifiedMedalData summerMedals winterMedals !! year ≫= (.!! isoCode)
  = Some (Unified.Entry (Season.gold w) (Season.silver w) (Season.bronze w)
            (Season.historical w) (Season.display_name w)
            None (Some "winter")).
Proof.
  intros Hy Hw Hs. rewrite unified_entry, Hs.
  unfold yearData. rewrite Hy. simpl. by rewrite Hw.
Qed.

Lemma winter_only_is_copied_witness :
  buildUnifiedMedalData ∅ winter_1992 !! "1992" ≫= (.!! "DE")
  = Some (Unified.Entry 10 10 6 false None None (Some "winter")).
Proof.
  apply (winter_only_is_copied ∅ winter_1992 "1992" "DE"
           {[ "DE" := germany_winter_1992 ]} germany_winter_1992).
  - apply lookup_singleton_eq.
  - apply lookup_singleton_eq.
  - reflexivity.
Defined.

(** ** Sums over a dictionary *)

Lemma foldr_add_Permutation {V} (f : V → Z) (l1 l2 : list V) :
  l1 ≡ₚ l2 →
  foldr (λ v acc, f v + acc) 0 l1 = foldr (λ v acc, f v + acc) 0 l2.
Proof. induction 1; simpl; lia. Qed.

Lemma foldl_add_foldr {V} (f : V → Z) (l : list V) (a : Z) :
  foldl (λ acc v, acc + f v) a l = a + foldr (λ v acc, f v + acc) 0 l.
Proof.
  revert a. induction l as [|v l IH]; intros a; simpl; [lia|].
  rewrite IH. lia.
Qed.

Lemma sumOver_empty {V} (f : V → Z) : sumOver f ∅ = 0.
Proof. unfold sumOver. by rewrite map_to_list_empty. Qed.

Lemma sumOver_insert {V} (f : V → Z) (m : gmap string V) k v :
  m !! k = None → sumOver f (<[k := v]> m) = f v + sumOver f m.
Proof.
  intros Hk. unfold sumOver.
  rewrite (foldr_add_Permutation f _ (v :: (map_to_list m).*2)); [done|].
  by rewrite (map_to_list_insert m k v Hk).
Qed.

Lemma sumOver_delete {V} (f : V → Z) (m : gmap string V) k :
  sumOver f m = from_option f 0 (m !! k) + sumOver f (delete k m).
Proof.
  destruct (m !! k) as [v|] eqn:Hk; simpl.
  - rewrite <- (insert_delete_id m k v Hk) at 1.
    apply sumOver_insert. apply lookup_delete_eq.
  - by rewrite delete_id.
Qed.

(** ** Merging a year keeps every medal *)

Lemma unifyYear_insert_summer summerData winterData k s :
  summerData !! k = None →
  unifyYear (<[k := s]> summerData) winterData
  = <[k := default (Unified.Entry 0 0 0 false None None None)
             (unifyCountry (Some s) (winterData !! k))]>
      (unifyYear summerData (delete k winterData)).
Proof.
  intros Hk. apply map_eq. intros j. rewrite unifyYear_lookup.
  destruct (decide (j = k)) as [->|Hne].
  - rewrite !lookup_insert_eq. by destruct (winterData !! k).
  - rewrite !lookup_insert_ne by done.
    by rewrite unifyYear_lookup, lookup_delete_ne.
Qed.

Lemma unifyYear_insert_winter winterData k w :
  winterData !! k = None →
  unifyYear ∅ (<[k := w]> winterData)
  = <[k := Unified.Entry (Season.gold w) (Season.silver w) (Season.bronze w)
             (Season.historical w) (Season.display_name w)
             None (Some "winter")]>
      (unifyYear ∅ winterData).
Proof.
  intros Hk. apply map_eq. intros j. rewrite unifyYear_lookup.
  destruct (decide (j = k)) as [->|Hne].
  - by rewrite !lookup_insert_eq, lookup_empty.
  - rewrite !lookup_insert_ne by done. by rewrite unifyYear_lookup.
Qed.

Lemma unifyYear_keeps_medals summerData winterData :
  sumOver totalMedals (unifyYear summerData winterData)
  = sumOver seasonMedals summerData + sumOver seasonMedals winterData.
Proof.
  revert winterData.
  induction summerData as [|k s summerData Hk IH] using map_ind;
    intros winterData.
  - rewrite sumOver_empty.
    induction winterData as [|k w winterData Hk IH] using map_ind.
    + assert (unifyYear ∅ ∅ = ∅) as ->.
      { apply map_eq. intros j. by rewrite unifyYear_lookup, !lookup_empty. }
      by rewrite !sumOver_empty.
    + rewrite unifyYear_insert_winter by done.
      rewrite !sumOver_insert; [|done|].
      * rewrite IH. unfold totalMedals, seasonMedals. simpl. lia.
      * by rewrite unifyYear_lookup, lookup_empty, Hk.
  - rewrite unifyYear_insert_summer by done.
    rewrite !sumOver_insert; [|done|].
    + rewrite IH. rewrite (sumOver_delete seasonMedals winterData k).
      destruct (winterData !! k) as [w|]; simpl;
        unfold totalMedals, seasonMedals; simpl; lia.
    + by rewrite unifyYear_lookup, Hk, lookup_delete_eq.
Qed.

Lemma getCurrentMedalData_unified summerMedals winterMedals currentYear :
  getCurrentMedalData (buildUnifiedMedalData summerMedals winterMedals)
    currentYear
  = unifyYear (yearData summerMedals (pretty currentYear))
              (yearData winterMedals (pretty currentYear)).
Proof.
  unfold getCurrentMedalData. rewrite buildUnifiedMedalData_lookup.
  destruct (decide _) as [|Hn]; [done|]. simpl.
  rewrite elem_of_union, !elem_of_dom in Hn.
  unfold yearData.
  destruct (summerMedals !! pretty currentYear); [exfalso; eauto|].
  destruct (winterMedals !! pretty currentYear); [exfalso; eauto|].
  simpl. apply map_eq. intros j.
  by rewrite unifyYear_lookup, !lookup_empty.
Qed.

(** X3. The medal total the info bar shows for a year of the unified
    table is the sum of all Summer and all Winter medals of that year (or
    the dash when that sum is zero): merging loses and invents no medal. *)
Theorem info_bar_total_is_conserved
    (summerMedals winterMedals : SeasonYearTable) (currentYear : Z) :
  totalMedalsText
    (updateInfoBar (buildUnifiedMedalData summerMedals winterMedals)
       currentYear)
  = let medals :=
      sumOver seasonMedals (yearData summerMedals (pretty currentYear))
      + sumOver seasonMedals (yearData winterMedals (pretty currentYear)) in
    if decide (medals = 0) then None else Some medals.
Proof.
  unfold updateInfoBar. cbn [totalMedalsText].
  rewrite getCurrentMedalData_unified, foldl_add_foldr, Z.add_0_l.
  fold (sumOver totalMedals
          (unifyYear (yearData summerMedals (pretty currentYear))
                     (yearData winterMedals (pretty currentYear)))).
  by rewrite unifyYear_keeps_medals.
Qed.

Example info_bar_total_1992 :
  totalMedalsText
    (updateInfoBar (buildUnifiedMedalData summer_1992 winter_1992) 1992)
  = Some 108.
Proof. vm_compute. reflexivity. Qed.

(** ** The season scan *)

Lemma scanSeasons_summer countries hasSummer0 hasWinter0 :
  (scanSeasons countries hasSummer0 hasWinter0).1 = true ↔
  hasSummer0 = true ∨ ∃ country, country ∈ countries ∧ showsSummer country.
Proof.
  revert hasSummer0 hasWinter0.
  induction countries as [|c countries IH]; intros s0 w0; simpl.
  { split; [by left|]. intros [?|(? & []%elem_of_nil & _)]. done. }
  unfold showsSummer in *.
  case_bool_decide as Hboth; simpl.
  { split; [|done]. intros _. right. exists c. split; [left|]. by left. }
  case_bool_decide as Hsummer; simpl.
  { rewrite IH. split; [|by left]. intros _. right. exists c.
    split; [left|]. by right. }
  assert ((∃ country, country ∈ c :: countries
             ∧ (is_Some (Unified.seasons country)
                ∨ Unified.season country = Some "summer"))
          ↔ ∃ country, country ∈ countries
             ∧ (is_Some (Unified.seasons country)
                ∨ Unified.season country = Some "summer")) as Hskip.
  { split.
    - intros (c' & [->|Hc']%elem_of_cons & Hs); [|eauto].
      destruct Hs; done.
    - intros (c' & Hc' & Hs). exists c'. split; [by right|done]. }
  rewrite Hskip. case_bool_decide; simpl; apply IH.
Qed.

Lemma scanSeasons_winter countries hasSummer0 hasWinter0 :
  (scanSeasons countries hasSummer0 hasWinter0).2 = true ↔
  hasWinter0 = true ∨ ∃ country, country ∈ countries ∧ showsWinter country.
Proof.
  revert hasSummer0 hasWinter0.
  induction countries as [|c countries IH]; intros s0 w0; simpl.
  { split; [by left|]. intros [?|(? & []%elem_of_nil & _)]. done. }
  unfold showsWinter in *.
  case_bool_decide as Hboth; simpl.
  { split; [|done]. intros _. right. exists c. split; [left|]. by left. }
  case_bool_decide as Hsummer; simpl.
  { rewrite IH. split.
    - intros [?|(c' & Hc' & Hs)]; [by left|]. right. exists c'.
      split; [by right|done].
    - intros [?|(c' & [->|Hc']%elem_of_cons & Hs)]; [by left| |].
      + destruct Hs as [?|?]; [done|congruence].
      + right. eauto. }
  case_bool_decide as Hwinter; simpl.
  { rewrite IH. split; [|by left]. intros _. right. exists c.
    split; [left|]. by right. }
  rewrite IH. split.
  - intros [?|(c' & Hc' & Hs)]; [by left|]. right. exists c'.
    split; [by right|done].
  - intros [?|(c' & [->|Hc']%elem_of_cons & Hs)]; [by left| |].
    + destruct Hs as [?|?]; done.
    + right. eauto.
Qed.

Lemma elem_of_values {V} (m : gmap string V) (v : V) :
  v ∈ (map_to_list m).*2 ↔ ∃ k, m !! k = Some v.
Proof.
  rewrite list_elem_of_fmap. split.
  - intros ([k v'] & -> & Hkv). exists k. by apply elem_of_map_to_list.
  - intros [k Hk]. exists (k, v). split; [done|].
    by apply elem_of_map_to_list.
Qed.

Lemma getOlympicsForYear_hasSummer medalData year :
  hasSummer (getOlympicsForYear medalData year) = true ↔
  ((year ∉ cancelledYears)
   ∧ ∃ isoCode country,
       getCurrentMedalData medalData year !! isoCode = Some country
       ∧ showsSummer country).
Proof.
  unfold getOlympicsForYear, getCurrentMedalData.
  case_bool_decide as Hc; simpl; [split; [done|by intros [? _]]|].
  destruct (medalData !! pretty year) as [current|]; simpl.
  - destruct (scanSeasons _ _ _) as [s w] eqn:Hscan. simpl.
    change s with (s, w).1. rewrite <- Hscan, scanSeasons_summer.
    split.
    + intros [?|(c & [k Hk]%elem_of_values & Hs)]; [done|]. eauto.
    + intros (_ & k & c & Hk & Hs). right. exists c.
      split; [|done]. apply elem_of_values. eauto.
  - split; [done|]. intros (_ & k & c & Hk & _).
    by rewrite lookup_empty in Hk.
Qed.

Lemma getOlympicsForYear_hasWinter medalData year :
  hasWinter (getOlympicsForYear medalData year) = true ↔
  ((year ∉ cancelledYears)
   ∧ ∃ isoCode country,
       getCurrentMedalData medalData year !! isoCode = Some country
       ∧ showsWinter country).
Proof.
  unfold getOlympicsForYear, getCurrentMedalData.
  case_bool_decide as Hc; simpl; [split; [done|by intros [? _]]|].
  destruct (medalData !! pretty year) as [current|]; simpl.
  - destruct (scanSeasons _ _ _) as [s w] eqn:Hscan. simpl.
    change w with (s, w).2. rewrite <- Hscan, scanSeasons_winter.
    split.
    + intros [?|(c & [k Hk]%elem_of_values & Hs)]; [done|]. eauto.
    + intros (_ & k & c & Hk & Hs). right. exists c.
      split; [|done]. apply elem_of_values. eauto.
  - split; [done|]. intros (_ & k & c & Hk & _).
    by rewrite lookup_empty in Hk.
Qed.

(** X4. What [getOlympicsForYear] reports does not depend on the order in
    which the countries of the year are visited: [cancelled] holds exactly
    for 1916, 1940 and 1944; otherwise [hasSummer] holds exactly when some
    country of that year carries a [seasons] breakdown or the tag
    "summer", and [hasWinter] exactly when some country carries a
    breakdown or the tag "winter". *)
Theorem olympics_of_year (medalData : UnifiedYearTable) (year : Z) :
  (cancelled (getOlympicsForYear medalData year) = true ↔
     year ∈ cancelledYears)
  ∧ (hasSummer (getOlympicsForYear medalData year) = true ↔
       ((year ∉ cancelledYears)
        ∧ ∃ isoCode country,
            getCurrentMedalData medalData year !! isoCode = Some country
            ∧ showsSummer country))
  ∧ (hasWinter (getOlympicsForYear medalData year) = true ↔
       ((year ∉ cancelledYears)
        ∧ ∃ isoCode country,
            getCurrentMedalData medalData year !! isoCode = Some country
            ∧ showsWinter country)).
Proof.
  split_and!.
  - unfold getOlympicsForYear. case_bool_decide; simpl; [by split|].
    destruct (medalData !! pretty year); [destruct (scanSeasons _ _ _)|];
      simpl; split; intros; done.
  - apply getOlympicsForYear_hasSummer.
  - apply getOlympicsForYear_hasWinter.
Qed.

(** ** The resolver on a unified table *)

Lemma unified_showsSummer summerData winterData :
  (∃ isoCode country,
     unifyYear summerData winterData !! isoCode = Some country
     ∧ showsSummer country)
  ↔ summerData ≠ ∅.
Proof.
  split.
  - intros (k & c & Hk & Hs) ->. rewrite unifyYear_lookup, lookup_empty in Hk.
    destruct (winterData !! k); simplify_eq.
    destruct Hs as [[? ?]|?]; simplify_eq/=.
  - intros [k [s Hs]]%map_choose. exists k.
    destruct (winterData !! k) as [w|] eqn:Hw.
    + eexists. rewrite unifyYear_lookup, Hs, Hw. split; [done|].
      left. simpl. eauto.
    + eexists. rewrite unifyYear_lookup, Hs, Hw. split; [done|].
      by right.
Qed.

Lemma unified_showsWinter summerData winterData :
  (∃ isoCode country,
     unifyYear summerData winterData !! isoCode = Some country
     ∧ showsWinter country)
  ↔ winterData ≠ ∅.
Proof.
  split.
  - intros (k & c & Hk & Hs) ->. rewrite unifyYear_lookup, lookup_empty in Hk.
    destruct (summerData !! k); simplify_eq.
    destruct Hs as [[? ?]|?]; simplify_eq/=.
  - intros [k [w Hw]]%map_choose. exists k.
    destruct (summerData !! k) as [s|] eqn:Hs.
    + eexists. rewrite unifyYear_lookup, Hs, Hw. split; [done|].
      left. simpl. eauto.
    + eexists. rewrite unifyYear_lookup, Hs, Hw. split; [done|].
      by right.
Qed.

Lemma unified_hasSummer summerMedals winterMedals year :
  hasSummer
    (getOlympicsForYear (buildUnifiedMedalData summerMedals winterMedals) year)
  = bool_decide ((year ∉ cancelledYears)
                 ∧ yearData summerMedals (pretty year) ≠ ∅).
Proof.
  apply Bool.eq_true_iff_eq. rewrite bool_decide_eq_true.
  by rewrite getOlympicsForYear_hasSummer, getCurrentMedalData_unified,
    unified_showsSummer.
Qed.

Lemma unified_hasWinter summerMedals winterMedals year :
  hasWinter
    (getOlympicsForYear (buildUnifiedMedalData summerMedals winterMedals) year)
  = bool_decide ((year ∉ cancelledYears)
                 ∧ yearData winterMedals (pretty year) ≠ ∅).
Proof.
  apply Bool.eq_true_iff_eq. rewrite bool_decide_eq_true.
  by rewrite getOlympicsForYear_hasWinter, getCurrentMedalData_unified,
    unified_showsWinter.
Qed.

(** X5. On the table built from the two season tables, and for a year that
    was not cancelled, [hasSummer] says exactly that the Summer table lists
    at least one country for that year, and [hasWinter] the same for the
    Winter table. *)
Theorem olympics_of_unified_year
    (summerMedals winterMedals : SeasonYearTable) (year : Z) :
  year ∉ cancelledYears →
  (hasSummer
     (getOlympicsForYear (buildUnifiedMedalData summerMedals winterMedals)
        year) = true
   ↔ ∃ isoCode s, yearData summerMedals (pretty year) !! isoCode = Some s)
  ∧ (hasWinter
       (getOlympicsForYear (buildUnifiedMedalData summerMedals winterMedals)
          year) = true
     ↔ ∃ isoCode w, yearData winterMedals (pretty year) !! isoCode = Some w).
Proof.
  intros Hyear. rewrite unified_hasSummer, unified_hasWinter.
  rewrite !bool_decide_eq_true. split.
  - split.
    + intros [_ [k [s Hs]]%map_choose]. eauto.
    + intros (k & s & Hs). split; [done|]. intros Hempty.
      by rewrite Hempty, lookup_empty in Hs.
  - split.
    + intros [_ [k [w Hw]]%map_choose]. eauto.
    + intros (k & w & Hw). split; [done|]. intros Hempty.
      by rewrite Hempty, lookup_empty in Hw.
Qed.

Lemma olympics_of_unified_year_witness :
  (hasSummer
     (getOlympicsForYear (buildUnifiedMedalData summer_1992 ∅) 1992) = true
   ↔ ∃ isoCode s, yearData summer_1992 (pretty 1992%Z) !! isoCode = Some s)
  ∧ (hasWinter
       (getOlympicsForYear (buildUnifiedMedalData summer_1992 ∅) 1992) = true
     ↔ ∃ isoCode w,
         yearData (∅ : SeasonYearTable) (pretty 1992%Z) !! isoCode = Some w).
Proof.
  apply (olympics_of_unified_year summer_1992 ∅ 1992).
  unfold cancelledYears. rewrite !elem_of_cons, elem_of_nil.
  intros [?|[?|[?|?]]]; done.
Defined.

(** X6. The year display of the info bar, read off the two season tables:
    the cross for a cancelled year; otherwise sun and snowflake when both
    tables list a country for the year, the snowflake when only the Winter
    table does, and the sun in every other case, which includes a year for
    which neither table lists anything. *)
Theorem year_display_of_unified
    (summerMedals winterMedals : SeasonYearTable) (currentYear : Z) :
  yearDisplayHTML
    (updateInfoBar (buildUnifiedMedalData summerMedals winterMedals)
       currentYear)
  = (if bool_decide (currentYear ∈ cancelledYears) then "&#10060; "
     else if bool_decide (yearData winterMedals (pretty currentYear) = ∅)
          then "&#9728;&#65039; "
     else if bool_decide (yearData summerMedals (pretty currentYear) = ∅)
          then "&#10052;&#65039; "
     else "&#9728;&#65039; &#10052;&#65039; ")
    +:+ pretty currentYear.
Proof.
  unfold updateInfoBar. cbn [yearDisplayHTML].
  rewrite unified_hasSummer, unified_hasWinter.
  case_bool_decide as Hc; [done|].
  repeat case_bool_decide; simpl; try done; tauto.
Qed.

Example year_without_data_shows_sun :
  yearDisplayHTML (updateInfoBar (buildUnifiedMedalData summer_1992 ∅) 1990)
  = "&#9728;&#65039; 1990".
Proof. vm_compute. reflexivity. Qed.

(** ** The fill colour expression *)

Lemma no_keys_iff_empty {V} (m : gmap string V) :
  length (map_to_list m) = 0%nat ↔ m = ∅.
Proof.
  rewrite <- map_to_list_empty_iff. split.
  - apply nil_length_inv.
  - by intros ->.
Qed.

(** X7. [updateMapColors] paints everything with the "no data" colour
    when the year has no country; otherwise it builds a [match] expression
    with exactly one branch per country of the year, no label twice, each
    branch holding the colour of that country's medal total, and the "no
    data" colour as the fallback. *)
Theorem fill_color_branches
    (medalData : UnifiedYearTable) (quantileBreaks : list number)
    (currentYear : Z) :
  (getCurrentMedalData medalData currentYear = ∅ →
   updateMapColors medalData quantileBreaks currentYear
   = Constant COLOR_PALETTE.noData)
  ∧ (getCurrentMedalData medalData currentYear ≠ ∅ →
     ∃ branches,
       updateMapColors medalData quantileBreaks currentYear
       = Match branches COLOR_PALETTE.noData
       ∧ NoDup branches.*1
       ∧ ∀ isoCode color,
           (isoCode, color) ∈ branches ↔
           ∃ country,
             getCurrentMedalData medalData currentYear !! isoCode
               = Some country
             ∧ color = getColorForMedalCount quantileBreaks
                         (Num (Int (totalMedals country)))).
Proof.
  unfold updateMapColors. split.
  - intros Hempty. rewrite decide_True; [done|]. by apply no_keys_iff_empty.
  - intros Hne. rewrite decide_False by (by rewrite no_keys_iff_empty).
    eexists. split; [reflexivity|]. split.
    + rewrite <- list_fmap_compose.
      rewrite (list_fmap_ext _ fst (map_to_list _)) by (by intros ? [? ?]).
      apply NoDup_fst_map_to_list.
    + intros isoCode color. rewrite list_elem_of_fmap. split.
      * intros ([k c] & [= -> ->] & Hkc). exists c.
        split; [by apply elem_of_map_to_list|done].
      * intros (c & Hc & ->). exists (isoCode, c).
        split; [done|]. by apply elem_of_map_to_list.
Qed.

Lemma fill_color_branches_witness :
  ∃ branches,
    updateMapColors (buildUnifiedMedalData summer_1992 winter_1992)
      [Int 50; Int 200] 1992
    = Match branches COLOR_PALETTE.noData
    ∧ NoDup branches.*1
    ∧ ∀ isoCode color,
        (isoCode, color) ∈ branches ↔
        ∃ country,
          getCurrentMedalData
            (buildUnifiedMedalData summer_1992 winter_1992) 1992 !! isoCode
            = Some country
          ∧ color = getColorForMedalCount [Int 50; Int 200]
                      (Num (Int (totalMedals country))).
Proof.
  apply (fill_color_branches
           (buildUnifiedMedalData summer_1992 winter_1992)
           [Int 50; Int 200] 1992).
  intros Hempty.
  assert (getCurrentMedalData
            (buildUnifiedMedalData summer_1992 winter_1992) 1992 !! "DE"
          = None) as Hde by (by rewrite Hempty).
  vm_compute in Hde. discriminate.
Defined.

(** X8. With the breaks computed from the same table, the expression
    never holds an undefined colour: the fallback is the "no data" colour
    and every branch holds that colour or one of the nine palette
    colours. *)
Theorem fill_colors_are_defined
    (medalData : UnifiedYearTable) (currentYear : Z) :
  match updateMapColors medalData (calculateQuantileBreaks medalData)
          currentYear with
  | Constant color => color = COLOR_PALETTE.noData
  | Match branches fallback =>
      fallback = COLOR_PALETTE.noData
      ∧ Forall (λ branch,
                  ∃ color, branch.2 = Some color
                           ∧ (color = COLOR_PALETTE.noData
                              ∨ color ∈ COLOR_PALETTE.colors))
          branches
  end.
Proof.
  unfold updateMapColors. destruct (decide _); [done|].
  split; [done|]. apply Forall_fmap, Forall_forall.
  intros [isoCode country] _. unfold compose. cbn [snd].
  pose proof (quantileBreaksOf_length (collectMedalCounts medalData)) as Hlen.
  fold (calculateQuantileBreaks medalData) in Hlen.
  destruct (decide (totalMedals country = 0%Z)) as [->|Hz].
  - exists COLOR_PALETTE.noData. split; [reflexivity|by left].
  - rewrite getColor_number by done.
    destruct (palette_lookup
                (bucketIndex (calculateQuantileBreaks medalData)
                   (Int (totalMedals country))))
      as (color & Hc & Hin); [by apply bucketIndex_bound|].
    exists color. split; [done|by right].
Qed.

(** ** More on the break set *)

Lemma quantileBreaksOf_Permutation_witness :
  quantileBreaksOf [3; 1; 2] = quantileBreaksOf [1; 2; 3].
Proof.
  apply quantileBreaksOf_Permutation.
  etrans; [apply perm_swap|]. apply perm_skip, perm_swap.
Defined.

Lemma foldl_Set_add_grows acc xs :
  (length acc ≤ length (foldl Set_add acc xs))%nat.
Proof.
  revert acc. induction xs as [|x xs IH]; intros acc; simpl; [done|].
  etrans; [|apply IH]. unfold Set_add.
  destruct (decide _); rewrite ?length_app; lia.
Qed.

Lemma Set_of_nil_inv xs : Set_of xs = [] → xs = [].
Proof.
  destruct xs as [|x xs]; [done|]. unfold Set_of. simpl. intros Hnil.
  pose proof (foldl_Set_add_grows (Set_add [] x) xs) as Hlen.
  rewrite Hnil in Hlen. unfold Set_add in Hlen.
  rewrite decide_False in Hlen by apply not_elem_of_nil. simpl in Hlen. lia.
Qed.

Lemma quantileBreaksOf_nonempty (allMedalCounts : list Z) :
  allMedalCounts ≠ [] →
  Z.of_nat (length allMedalCounts) < 2 ^ 32 →
  ∃ b breaks,
    quantileBreaksOf allMedalCounts = Int <$> (b :: breaks)
    ∧ StronglySorted Z.lt (b :: breaks)
    ∧ (∀ x, x ∈ b :: breaks → x ∈ allMedalCounts).
Proof.
  intros Hne Hlen.
  destruct (quantileBreaksOf_spec allMedalCounts Hne Hlen)
    as (indices & values & breaks
        & Hrank & _ & _ & Hval & _ & Hset & Hq & Hs & Hsub).
  destruct breaks as [|b breaks]; [|by exists b, breaks].
  apply Set_of_nil_inv, fmap_nil_inv in Hset. subst values.
  apply Forall2_length in Hrank, Hval.
  change (length fractions) with 8%nat in Hrank. simpl in Hval. lia.
Qed.

Lemma collectMedalCounts_elem (medalData : UnifiedYearTable) (t : Z) :
  t ∈ collectMedalCounts medalData ↔
  0 < t ∧ ∃ year yearData isoCode country,
            medalData !! year = Some yearData
            ∧ yearData !! isoCode = Some country
            ∧ totalMedals country = t.
Proof.
  unfold collectMedalCounts. rewrite list_elem_of_bind. split.
  - intros (yd & [Ht Hin]%list_elem_of_filter & [year Hy]%elem_of_values).
    split; [done|].
    apply list_elem_of_fmap in Hin as (c & -> & [k Hk]%elem_of_values).
    eauto 10.
  - intros (Ht & year & yd & k & c & Hy & Hk & <-). exists yd. split.
    + apply list_elem_of_filter. split; [done|].
      apply list_elem_of_fmap. exists c. split; [done|].
      apply elem_of_values. eauto.
    + apply elem_of_values. eauto.
Qed.

(** X10. Whenever the table holds a positive total, the break set is not
    empty and each break is the positive medal total of some country in
    some year of the table: no break is interpolated or invented. *)
Theorem breaks_are_observed_totals (medalData : UnifiedYearTable) :
  collectMedalCounts medalData ≠ [] →
  Z.of_nat (length (collectMedalCounts medalData)) < 2 ^ 32 →
  ∃ breaks,
    calculateQuantileBreaks medalData = Int <$> breaks
    ∧ breaks ≠ []
    ∧ ∀ b, b ∈ breaks →
        0 < b ∧ ∃ year yearData isoCode country,
                  medalData !! year = Some yearData
                  ∧ yearData !! isoCode = Some country
                  ∧ totalMedals country = b.
Proof.
  intros Hne Hlen.
  destruct (quantileBreaksOf_nonempty _ Hne Hlen)
    as (b & breaks & Hq & _ & Hsub).
  exists (b :: breaks). split_and!; [done|done|].
  intros x Hx. by apply collectMedalCounts_elem, Hsub.
Qed.

Lemma breaks_are_observed_totals_witness :
  ∃ breaks,
    calculateQuantileBreaks (buildUnifiedMedalData summer_1992 winter_1992)
    = Int <$> breaks
    ∧ breaks ≠ []
    ∧ ∀ b, b ∈ breaks →
        0 < b ∧ ∃ year yearData isoCode country,
                  buildUnifiedMedalData summer_1992 winter_1992 !! year
                    = Some yearData
                  ∧ yearData !! isoCode = Some country
                  ∧ totalMedals country = b.
Proof.
  apply (breaks_are_observed_totals
           (buildUnifiedMedalData summer_1992 winter_1992)).
  - vm_compute. discriminate.
  - vm_compute. reflexivity.
Defined.

(** ** More on the colour of a total *)

Lemma palette_NoDup : NoDup COLOR_PALETTE.colors.
Proof. apply (bool_decide_unpack _). vm_compute. exact I. Qed.

Lemma noData_not_in_palette :
  COLOR_PALETTE.noData ∉ COLOR_PALETTE.colors.
Proof. apply (bool_decide_unpack _). vm_compute. exact I. Qed.

Lemma bucketIndex_cases breaks count :
  (bucketIndex breaks count < length breaks)%nat
  ∨ bucketIndex breaks count = 8%nat.
Proof.
  unfold bucketIndex.
  destruct (firstBreak count 0 breaks) as [j|] eqn:Hj; [|by right].
  left. apply firstBreak_bound in Hj. lia.
Qed.

Lemma getColor_cases breaks count :
  getColorForMedalCount breaks count = Some COLOR_PALETTE.noData
  ∨ ∃ n, getColorForMedalCount breaks count
         = COLOR_PALETTE.colors !! bucketIndex breaks n.
Proof.
  destruct count as [[[| |]|]| |]; simpl; eauto.
Qed.

(** X11. With fewer than eight breaks the palette is used with a gap:
    whatever the total, the result is never one of the colours at the
    positions from the number of breaks up to 7; a total above every
    break jumps straight to the darkest colour. *)
Theorem unused_palette_positions
    (quantileBreaks : list number) (count : value) (i : nat) :
  (length quantileBreaks ≤ i < 8)%nat →
  getColorForMedalCount quantileBreaks count ≠ COLOR_PALETTE.colors !! i.
Proof.
  intros [Hlo Hhi] Heq.
  destruct (lookup_lt_is_Some_2 COLOR_PALETTE.colors i) as [c Hc];
    [simpl; lia|].
  rewrite Hc in Heq.
  destruct (getColor_cases quantileBreaks count) as [Hno|[n Hn]].
  - rewrite Hno in Heq. injection Heq as <-.
    apply noData_not_in_palette. by eapply list_elem_of_lookup_2.
  - rewrite Hn in Heq.
    assert (bucketIndex quantileBreaks n = i) as Hi
      by (by eapply NoDup_lookup; [apply palette_NoDup| |]).
    destruct (bucketIndex_cases quantileBreaks n); lia.
Qed.

Lemma unused_palette_positions_witness :
  (length [Int 2; Int 3] ≤ 4 < 8)%nat
  ∧ getColorForMedalCount [Int 2; Int 3] (Num (Int 9))
    ≠ COLOR_PALETTE.colors !! 4%nat.
Proof.
  split; [simpl; lia|].
  apply (unused_palette_positions [Int 2; Int 3] (Num (Int 9)) 4).
  simpl. lia.
Defined.

(** X12. For a non-empty distribution of positive totals, a total that
    no total of the distribution undercuts gets the lightest colour of the
    palette. *)
Theorem smallest_total_is_lightest (allMedalCounts : list Z) (t : Z) :
  allMedalCounts ≠ [] →
  Z.of_nat (length allMedalCounts) < 2 ^ 32 →
  0 < t →
  (∀ u, u ∈ allMedalCounts → t ≤ u) →
  getColorForMedalCount (quantileBreaksOf allMedalCounts) (Num (Int t))
  = Some "#fff7ec".
Proof.
  intros Hne Hlen Ht Hmin.
  destruct (quantileBreaksOf_nonempty _ Hne Hlen)
    as (b & breaks & -> & _ & Hsub).
  rewrite getColor_number by lia.
  unfold bucketIndex. rewrite fmap_cons. cbn [firstBreak js_leb].
  rewrite bool_decide_true; [reflexivity|].
  apply Hmin, Hsub. by left.
Qed.

Lemma smallest_total_is_lightest_witness :
  getColorForMedalCount (quantileBreaksOf example_distribution)
    (Num (Int 1))
  = Some "#fff7ec".
Proof.
  apply smallest_total_is_lightest.
  - discriminate.
  - vm_compute. reflexivity.
  - lia.
  - intros u Hu. unfold example_distribution in Hu.
    repeat (apply elem_of_cons in Hu as [->|Hu]; [lia|]).
    by apply elem_of_nil in Hu.
Defined.

Lemma firstBreak_NaN i breaks : firstBreak NaN i breaks = None.
Proof. revert i. induction breaks as [|b breaks IH]; intros i; simpl; auto. Qed.

(** X13. A [NaN] total is not caught by the "no data" test and compares
    false with every break, so it is drawn in the darkest colour, whatever
    the break set. *)
Theorem NaN_total_is_darkest (quantileBreaks : list number) :
  getColorForMedalCount quantileBreaks (Num NaN) = Some "#7f0000".
Proof.
  simpl. unfold bucketIndex. by rewrite firstBreak_NaN.
Qed.

(** ** Sets of Numbers *)

Lemma foldl_Set_add_elem acc xs x :
  x ∈ foldl Set_add acc xs ↔ x ∈ acc ∨ x ∈ xs.
Proof.
  revert acc. induction xs as [|y xs IH]; intros acc; simpl.
  { rewrite elem_of_nil. tauto. }
  rewrite IH, elem_of_cons. unfold Set_add.
  destruct (decide (y ∈ acc)) as [Hy|Hy].
  - split; [tauto|]. intros [?|[->|?]]; auto.
  - rewrite elem_of_app, list_elem_of_singleton. tauto.
Qed.

Lemma foldl_Set_add_NoDup acc xs :
  NoDup acc → NoDup (foldl Set_add acc xs).
Proof.
  revert acc. induction xs as [|y xs IH]; intros acc Hacc; simpl; [done|].
  apply IH. unfold Set_add. destruct (decide (y ∈ acc)); [done|].
  apply NoDup_app. split_and!; [done| |apply NoDup_singleton].
  by intros x Hx ->%list_elem_of_singleton.
Qed.

Lemma Set_of_elem xs x : x ∈ Set_of xs ↔ x ∈ xs.
Proof.
  unfold Set_of. rewrite foldl_Set_add_elem, elem_of_nil. tauto.
Qed.

Lemma Set_of_NoDup xs : NoDup (Set_of xs).
Proof. apply foldl_Set_add_NoDup. constructor. Qed.

Lemma all_Int_fmap (l : list number) :
  Forall (λ x, ∃ z, x = Int z) l → ∃ zs, l = Int <$> zs.
Proof.
  induction 1 as [|x l [z ->] _ [zs ->]]; [by exists []|].
  by exists (z :: zs).
Qed.

Global Instance Int_inj : Inj (=) (=) Int.
Proof. by intros ?? [= ?]. Qed.

(** Sorting integers with [(a, b) => a - b] sorts them. *)
Lemma merge_sort_Int (zs : list Z) :
  merge_sort cmp_le (Int <$> zs) = Int <$> merge_sort Z.le zs.
Proof.
  pose proof (merge_sort_Permutation cmp_le (Int <$> zs)) as Hperm.
  pose proof (Sorted_merge_sort cmp_le (Int <$> zs)) as Hsorted.
  set (M := merge_sort cmp_le (Int <$> zs)) in *.
  assert (Forall (λ x, ∃ z, x = Int z) M) as Hint.
  { rewrite Hperm. apply Forall_fmap, Forall_forall. intros z _. by exists z. }
  destruct (all_Int_fmap M Hint) as [ms HM].
  rewrite HM in Hperm, Hsorted |- *. f_equal.
  apply (Sorted_unique Z.le).
  - clear -Hsorted. induction ms as [|m ms IH]; [constructor|].
    rewrite fmap_cons in Hsorted. apply Sorted_inv in Hsorted as [Hs Hhd].
    constructor; [by apply IH|].
    destruct ms; [constructor|]. rewrite fmap_cons in Hhd.
    apply HdRel_inv in Hhd. by constructor.
  - apply Sorted_merge_sort; apply _.
  - rewrite merge_sort_Permutation.
    apply (fmap_Permutation (λ x, match x with Int z => z | NaN => 0 end))
      in Hperm.
    rewrite <- !list_fmap_compose in Hperm.
    by rewrite !(list_fmap_ext _ id), !list_fmap_id in Hperm.
Qed.

Lemma sorted_NoDup_strict (zs : list Z) :
  StronglySorted Z.le zs → NoDup zs → StronglySorted Z.lt zs.
Proof.
  induction 1 as [|z zs Hs IH Hle]; intros Hnd; [constructor|].
  apply NoDup_cons in Hnd as [Hz Hnd]. constructor; [by apply IH|].
  rewrite Forall_forall in Hle |- *. intros y Hy.
  specialize (Hle y Hy). assert (z ≠ y) by (by intros ->). lia.
Qed.

(** ** The year index *)

(** X14. Provided every year key converts to an integer, [olympicYears]
    is a strictly ascending list without duplicates that holds exactly the
    years of the table and the three cancelled years; in particular the
    cancelled years are always in it. *)
Theorem olympic_years_index
    (Number : string → number) (medalData : UnifiedYearTable) :
  (∀ key, is_Some (medalData !! key) → ∃ z, Number key = Int z) →
  ∃ years,
    olympicYears Number medalData = Int <$> years
    ∧ StronglySorted Z.lt years
    ∧ ∀ z, z ∈ years ↔
           z ∈ cancelledYears
           ∨ ∃ key, is_Some (medalData !! key) ∧ Number key = Int z.
Proof.
  intros HNumber. unfold olympicYears.
  set (L := (Number <$> (map_to_list medalData).*1)
            ++ (Int <$> cancelledYears)).
  assert (∀ x, x ∈ L ↔
               (∃ key, is_Some (medalData !! key) ∧ Number key = x)
               ∨ ∃ z, z ∈ cancelledYears ∧ x = Int z) as HL.
  { intros x. unfold L. rewrite elem_of_app.
    assert (x ∈ Number <$> (map_to_list medalData).*1 ↔
            ∃ key, is_Some (medalData !! key) ∧ Number key = x) as Hkeys.
    { rewrite list_elem_of_fmap. split.
      - intros (key & -> & ([k v] & -> & Hkv)%list_elem_of_fmap).
        exists k. split; [|done]. apply elem_of_map_to_list in Hkv. eauto.
      - intros (key & [v Hv] & <-). exists key. split; [done|].
        apply list_elem_of_fmap. exists (key, v). split; [done|].
        by apply elem_of_map_to_list. }
    assert (x ∈ Int <$> cancelledYears ↔
            ∃ z, z ∈ cancelledYears ∧ x = Int z) as Hcancelled.
    { rewrite list_elem_of_fmap. split; intros (z & ? & ?); eauto. }
    tauto. }
  assert (Forall (λ x, ∃ z, x = Int z) (Set_of L)) as Hint.
  { apply Forall_forall. intros x [(key & Hkey & <-)|(z & _ & ->)]%Set_of_elem%HL;
      eauto. }
  destruct (all_Int_fmap _ Hint) as [ds Hds].
  rewrite Hds, merge_sort_Int.
  exists (merge_sort Z.le ds). split_and!; [done| |].
  - apply sorted_NoDup_strict.
    + apply StronglySorted_merge_sort; apply _.
    + rewrite merge_sort_Permutation.
      apply (NoDup_fmap Int). rewrite <- Hds. apply Set_of_NoDup.
  - intros z. rewrite merge_sort_Permutation.
    rewrite <- (list_elem_of_fmap_inj Int), <- Hds, Set_of_elem, HL.
    split.
    + intros [(key & ? & ?)|(z' & ? & [= ->])]; eauto.
    + intros [?|(key & ? & ?)]; eauto.
Qed.

Lemma olympic_years_index_witness :
  ∃ years,
    olympicYears example_Number stray_1940 = Int <$> years
    ∧ StronglySorted Z.lt years
    ∧ ∀ z, z ∈ years ↔
           z ∈ cancelledYears
           ∨ ∃ key, is_Some (stray_1940 !! key) ∧ example_Number key = Int z.
Proof.
  apply olympic_years_index.
  intros key [yd Hkey]. unfold stray_1940 in Hkey.
  apply lookup_singleton_Some in Hkey as [<- _]. by exists 1940.
Defined.

Example olympic_years_example :
  olympicYears example_Number
    (buildUnifiedMedalData summer_1992 winter_1992)
  = [Int 1916; Int 1940; Int 1944; Int 1992].
Proof. vm_compute. reflexivity. Qed.

(** ** The popup's season label *)

(** X15. In the popup of a one-season entry of the unified table the
    label never names the other season: for an entry tagged "summer" it is
    "Summer" or empty, never "Winter", and for an entry tagged "winter" it
    is "Winter" or empty, never "Summer".  It is empty exactly when the
    year was cancelled or the other season also has a country that
    year. *)
Theorem season_label_agrees_with_tag
    (summerMedals winterMedals : SeasonYearTable) (currentYear : Z)
    (isoCode : string) (country : Unified.entry) :
  getCurrentMedalData (buildUnifiedMedalData summerMedals winterMedals)
    currentYear !! isoCode = Some country →
  Unified.seasons country = None →
  let label :=
    seasonLabel (buildUnifiedMedalData summerMedals winterMedals)
      currentYear in
  (Unified.season country = Some "summer" →
     label = if bool_decide
                  (currentYear ∈ cancelledYears
                   ∨ yearData winterMedals (pretty currentYear) ≠ ∅)
             then "" else "Summer")
  ∧ (Unified.season country = Some "winter" →
       label = if bool_decide
                    (currentYear ∈ cancelledYears
                     ∨ yearData summerMedals (pretty currentYear) ≠ ∅)
               then "" else "Winter").
Proof.
  intros Hc Hone label. unfold label, seasonLabel.
  rewrite unified_hasSummer, unified_hasWinter.
  rewrite getCurrentMedalData_unified, unifyYear_lookup in Hc.
  split; intros Htag.
  - assert (yearData summerMedals (pretty currentYear) ≠ ∅) as Hs.
    { intros Hempty. rewrite Hempty, lookup_empty in Hc.
      destruct (yearData winterMedals (pretty currentYear) !! isoCode);
        simplify_eq/=. }
    repeat case_bool_decide; simpl; try done; tauto.
  - assert (yearData winterMedals (pretty currentYear) ≠ ∅) as Hw.
    { intros Hempty. rewrite Hempty, lookup_empty in Hc.
      destruct (yearData summerMedals (pretty currentYear) !! isoCode);
        simplify_eq/=. }
    repeat case_bool_decide; simpl; try done; tauto.
Qed.

Lemma season_label_agrees_with_tag_witness :
  (Some "summer" = Some "summer" →
     seasonLabel (buildUnifiedMedalData summer_1992 ∅) 1992
     = if bool_decide
            (1992 ∈ cancelledYears
             ∨ yearData (∅ : SeasonYearTable) (pretty 1992) ≠ ∅)
       then "" else "Summer")
  ∧ (Some "summer" = Some "winter" →
       seasonLabel (buildUnifiedMedalData summer_1992 ∅) 1992
       = if bool_decide
              (1992 ∈ cancelledYears
               ∨ yearData summer_1992 (pretty 1992) ≠ ∅)
         then "" else "Winter").
Proof.
  apply (season_label_agrees_with_tag summer_1992 ∅ 1992 "DE"
           (Unified.Entry 33 21 28 false (Some "Germany") None
              (Some "summer"))).
  - vm_compute. reflexivity.
  - reflexivity.
Defined.

(** ** Products that need no rounding *)

Section exact_products.
Import SpecFloat.

Lemma shr_1_even m :
  0 ≤ m → m mod 2 = 0 →
  shr_1 (Build_shr_record m false false)
  = Build_shr_record (m / 2) false false.
Proof.
  intros Hm Heven. rewrite <- Z.div2_div. rewrite Zmod_even in Heven.
  destruct m as [|[p|p|]|p]; try done; simpl in *; lia.
Qed.

Lemma shr_iter_exact (n : nat) m :
  0 ≤ m → m mod 2 ^ Z.of_nat n = 0 →
  Nat.iter n shr_1 (Build_shr_record m false false)
  = Build_shr_record (m / 2 ^ Z.of_nat n) false false.
Proof.
  intros Hm. induction n as [|n IH]; intros Hmod.
  { simpl. by rewrite Z.div_1_r. }
  rewrite Nat2Z.inj_succ, Z.pow_succ_r in Hmod |- * by lia.
  assert (0 < 2 ^ Z.of_nat n) as Hpow by (apply Z.pow_pos_nonneg; lia).
  apply Z.mod_divide in Hmod as [c Hc]; [|lia].
  simpl. rewrite IH.
  - assert (m / 2 ^ Z.of_nat n = c * 2) as Hq.
    { rewrite Hc. replace (c * (2 * 2 ^ Z.of_nat n))
        with (c * 2 * 2 ^ Z.of_nat n) by lia.
      apply Z.div_mul. lia. }
    rewrite shr_1_even.
    + f_equal. rewrite Z.div_div by lia. f_equal. lia.
    + rewrite Hq. nia.
    + rewrite Hq. apply Z.mod_mul. lia.
  - apply Z.mod_divide; [lia|]. exists (c * 2). lia.
Qed.

(** A mantissa whose low bits are all zero is shifted without loss. *)
Lemma binary_round_aux_exact_shift mx ex :
  let k := Zdigits2 (Z.pos mx) - 53 in
  0 ≤ k → Z.pos mx mod 2 ^ k = 0 →
  -1074 ≤ ex + k ≤ 971 →
  binary_round_aux 53 1024 false (Z.pos mx) ex loc_Exact
  = S754_finite false (Z.to_pos (Z.pos mx / 2 ^ k)) (ex + k).
Proof.
  intros k Hk Hmod He.
  assert (0 < 2 ^ k) as HK by (apply Z.pow_pos_nonneg; lia).
  set (q := Z.pos mx / 2 ^ k).
  assert (2 ^ 52 ≤ q < 2 ^ 53) as Hq.
  { pose proof (Zdigits2_bounds (Z.pos mx) eq_refl) as [Hl Hu].
    replace (Zdigits2 (Z.pos mx) - 1) with (k + 52) in Hl by lia.
    replace (Zdigits2 (Z.pos mx)) with (k + 53) in Hu by lia.
    rewrite Z.pow_add_r in Hl, Hu by lia. split.
    - apply Z.div_le_lower_bound; lia.
    - apply Z.div_lt_upper_bound; lia. }
  assert (shr_fexp 53 1024 (Z.pos mx) ex loc_Exact
          = (Build_shr_record q false false, ex + k)) as Hshr.
  { unfold shr_fexp, fexp, emin.
    replace (Z.max (Zdigits2 (Z.pos mx) + ex - 53) (3 - 1024 - 53) - ex)
      with k by lia.
    cbn [shr_record_of_loc]. unfold shr.
    destruct k as [|p|p] eqn:Ek; [|clear Hk|lia].
    - unfold q. rewrite Z.div_1_r. f_equal. lia.
    - rewrite iter_pos_nat.
      rewrite shr_iter_exact; rewrite ?positive_nat_Z; done. }
  assert (Z.pos (Z.to_pos q) = q) as Hpos by (apply Z2Pos.id; lia).
  rewrite <- (binary_round_aux_exact (Z.to_pos q) (ex + k)).
  - unfold binary_round_aux at 1. rewrite Hshr.
    cbn [shr_m loc_of_shr_record round_nearest_even].
    unfold binary_round_aux.
    assert (shr_fexp 53 1024 (Z.pos (Z.to_pos q)) (ex + k) loc_Exact
            = (Build_shr_record q false false, ex + k)) as ->; [|done].
    unfold shr_fexp, fexp, emin. rewrite Hpos.
    assert (Zdigits2 q = 53) as -> by (apply Zdigits2_unique; lia).
    replace (Z.max (53 + (ex + k) - 53) (3 - 1024 - 53) - (ex + k)) with 0
      by lia.
    reflexivity.
  - rewrite Hpos. apply Zdigits2_unique; lia.
  - lia.
Qed.
End exact_products.

Section legend_ticks.
Import SpecFloat.

(** [n * literal] for a literal [a / 2^b] that is a double with at most
    two significant bits: the product is exact, and [Math.round] of it is
    the rounding of [n * a / 2^b] with ties going up. *)
Lemma round_exact_product n mc ec a b :
  0 < n < 2 ^ 51 →
  Zdigits2 (Z.pos mc) = 53 → Z.pos mc mod 2 ^ 51 = 0 →
  -55 ≤ ec ≤ -53 → 0 ≤ b →
  Z.pos mc * 2 ^ b = a * 2 ^ (- ec) →
  Math_round (tick_times (Whole n) (S754_finite false mc ec))
  = Whole ((2 * n * a + 2 ^ b) / 2 ^ (b + 1)).
Proof.
  intros Hn Hmc Hlow Hec Hb Hval.
  destruct (of_Z_spec n) as (mz & ez & Hof & Hez & Hmz & Hdz);
    [split; [lia|]; etrans; [apply Hn|done]|].
  assert (1 ≤ Zdigits2 n ≤ 51) as Hdn.
  { pose proof (Zdigits2_bounds n ltac:(lia)) as [Hl Hu]. split.
    - rewrite Zdigits2_log2 by lia. pose proof (Z.log2_nonneg n). lia.
    - destruct (decide (Zdigits2 n ≤ 51)); [done|].
      assert (2 ^ 51 ≤ 2 ^ (Zdigits2 n - 1)) by (apply Z.pow_le_mono_r; lia).
      lia. }
  pose proof (Zdigits2_bounds (Z.pos mz) eq_refl) as Hbz.
  pose proof (Zdigits2_bounds (Z.pos mc) eq_refl) as Hbc.
  rewrite Hdz in Hbz. rewrite Hmc in Hbc.
  set (X := Z.pos (mz * mc)).
  assert (X = Z.pos mz * Z.pos mc) as HX by (unfold X; lia).
  assert (2 ^ 104 ≤ X < 2 ^ 106) as HXb.
  { rewrite HX. change (2 ^ 104) with (2 ^ (53 - 1) * 2 ^ (53 - 1)).
    change (2 ^ 106) with (2 ^ 53 * 2 ^ 53). nia. }
  pose proof (Zdigits2_bounds X eq_refl) as HdX.
  assert (105 ≤ Zdigits2 X ≤ 106) as Hd.
  { split.
    - destruct (decide (105 ≤ Zdigits2 X)); [done|].
      assert (2 ^ Zdigits2 X ≤ 2 ^ 104) by (apply Z.pow_le_mono_r; lia).
      lia.
    - destruct (decide (Zdigits2 X ≤ 106)); [done|].
      assert (2 ^ 106 ≤ 2 ^ (Zdigits2 X - 1))
        by (apply Z.pow_le_mono_r; lia).
      lia. }
  set (k := Zdigits2 X - 53) in *.
  set (W := 2 ^ (- ez)) in *.
  assert (0 < W) by (apply Z.pow_pos_nonneg; lia).
  assert (0 < 2 ^ k) as HK by (apply Z.pow_pos_nonneg; lia).
  apply Z.mod_divide in Hlow as [c Hc]; [|lia].
  assert (X = n * c * 2 ^ (51 - ez - k) * 2 ^ k) as HXk.
  { rewrite HX, Hmz, Hc. fold W.
    replace (n * c * 2 ^ (51 - ez - k) * 2 ^ k)
      with (n * c * (2 ^ (51 - ez - k) * 2 ^ k)) by lia.
    rewrite <- Z.pow_add_r by lia.
    replace (51 - ez - k + k) with (51 + - ez) by lia.
    rewrite Z.pow_add_r by lia. fold W. lia. }
  cbn [tick_times]. rewrite Hof.
  unfold Double.mul, SFmul, Double.prec, Double.emax. cbn [xorb].
  rewrite binary_round_aux_exact_shift; fold X; fold k; [|lia| |lia].
  2:{ rewrite HXk. apply Z.mod_mul. lia. }
  set (q := X / 2 ^ k).
  assert (q * 2 ^ k = X) as Hq.
  { unfold q. rewrite HXk at 1. rewrite Z.div_mul by lia. lia. }
  assert (0 < q) by nia.
  cbn [Math_round cond_Zopp]. rewrite Z2Pos.id by done.
  set (e := ez + ec + k).
  rewrite decide_False by (unfold e; lia).
  set (D := 2 ^ (- e)).
  assert (0 < D) by (apply Z.pow_pos_nonneg; unfold e; lia).
  assert (0 < 2 ^ b) as HB by (apply Z.pow_pos_nonneg; lia).
  assert (D * 2 ^ k = W * 2 ^ (- ec)) as HDK.
  { unfold D, W. rewrite <- !Z.pow_add_r by (unfold e; lia).
    f_equal. unfold e. lia. }
  assert (q * 2 ^ b = n * a * D) as HqB.
  { apply (Z.mul_reg_r _ _ (2 ^ k)); [lia|].
    replace (q * 2 ^ b * 2 ^ k) with (q * 2 ^ k * 2 ^ b) by lia.
    rewrite Hq, HX, Hmz. fold W.
    replace (n * W * Z.pos mc * 2 ^ b) with (n * W * (Z.pos mc * 2 ^ b))
      by lia.
    rewrite Hval.
    replace (n * a * D * 2 ^ k) with (n * a * (D * 2 ^ k)) by lia.
    rewrite HDK. lia. }
  f_equal.
  replace (2 ^ (1 - e)) with (2 * D)
    by (unfold D; rewrite <- Z.pow_succ_r by (unfold e; lia); f_equal; lia).
  replace (2 ^ (b + 1)) with (2 * 2 ^ b)
    by (rewrite <- Z.pow_succ_r by lia; f_equal; lia).
  rewrite <- (Z.div_mul_cancel_r (2 * q + D) (2 * D) (2 ^ b)) by lia.
  replace ((2 * q + D) * 2 ^ b) with (D * (2 * n * a + 2 ^ b)) by nia.
  replace (2 * D * 2 ^ b) with (D * (2 * 2 ^ b)) by lia.
  apply Z.div_mul_cancel_l; lia.
Qed.

Lemma Math_max_spec (allMedalCounts : list Z) :
  allMedalCounts ≠ [] →
  ∃ m, Math_max allMedalCounts = Whole m
       ∧ m ∈ allMedalCounts
       ∧ ∀ t, t ∈ allMedalCounts → t ≤ m.
Proof.
  induction allMedalCounts as [|z l IH]; [done|]. intros _.
  destruct l as [|z' l].
  { exists z. simpl. split_and!; [done|by left|].
    by intros t ->%list_elem_of_singleton. }
  destruct IH as (m & Hm & Hin & Hmax); [done|].
  exists (Z.max z m). cbn [Math_max foldr] in Hm |- *.
  rewrite Hm. split_and!; [done| |].
  - destruct (Z.max_spec z m) as [[_ ->]|[_ ->]]; [by right|by left].
  - intros t [->|Ht]%elem_of_cons; [lia|].
    specialize (Hmax t Ht). lia.
Qed.

(** X16. When the table holds a positive total (all of them below 2^51),
    the legend's maximum is the largest total of the table, and the three
    other ticks are exactly three quarters, one half and one quarter of
    it rounded to the nearest whole number, a tie going up: no rounding
    error of the double products shows.  The four ticks are in order. *)
Theorem legend_ticks (medalData : UnifiedYearTable) :
  collectMedalCounts medalData ≠ [] →
  (∀ t, t ∈ collectMedalCounts medalData → t < 2 ^ 51) →
  ∃ m,
    0 < m
    ∧ m ∈ collectMedalCounts medalData
    ∧ (∀ t, t ∈ collectMedalCounts medalData → t ≤ m)
    ∧ updateLegend medalData
      = Legend (Whole m) (Whole ((3 * m + 2) / 4))
          (Whole ((m + 1) / 2)) (Whole ((m + 2) / 4))
    ∧ (m + 2) / 4 ≤ (m + 1) / 2 ≤ (3 * m + 2) / 4
    ∧ (3 * m + 2) / 4 ≤ m.
Proof.
  intros Hne Hbound.
  destruct (Math_max_spec _ Hne) as (m & Hm & Hin & Hmax).
  assert (0 < m) as Hpos.
  { pose proof (collectMedalCounts_positive medalData) as Hall.
    rewrite Forall_forall in Hall. by apply Hall. }
  specialize (Hbound m Hin).
  exists m. split_and!; try done.
  - unfold updateLegend. rewrite Hm. f_equal.
    + unfold literal_075.
      rewrite (round_exact_product m _ _ 3 2); try done; try lia.
      f_equal. change (2 ^ 2) with 4. change (2 ^ (2 + 1)) with (2 * 4).
      replace (2 * m * 3 + 4) with (2 * (3 * m + 2)) by lia.
      apply Z.div_mul_cancel_l; lia.
    + unfold literal_05.
      rewrite (round_exact_product m _ _ 1 1); try done; try lia.
      f_equal. change (2 ^ 1) with 2. change (2 ^ (1 + 1)) with (2 * 2).
      replace (2 * m * 1 + 2) with (2 * (m + 1)) by lia.
      apply Z.div_mul_cancel_l; lia.
    + unfold literal_025.
      rewrite (round_exact_product m _ _ 1 2); try done; try lia.
      f_equal. change (2 ^ 2) with 4. change (2 ^ (2 + 1)) with (2 * 4).
      replace (2 * m * 1 + 4) with (2 * (m + 2)) by lia.
      apply Z.div_mul_cancel_l; lia.
  - apply Z.div_le_lower_bound; [lia|].
    pose proof (Z.mul_div_le (m + 2) 4 ltac:(lia)). lia.
  - apply Z.div_le_lower_bound; [lia|].
    pose proof (Z.mul_div_le (m + 1) 2 ltac:(lia)). lia.
  - assert ((3 * m + 2) / 4 < m + 1); [|lia].
    apply Z.div_lt_upper_bound; lia.
Qed.

Lemma legend_ticks_witness :
  ∃ m,
    0 < m
    ∧ m ∈ collectMedalCounts (buildUnifiedMedalData summer_1992 winter_1992)
    ∧ (∀ t,
         t ∈ collectMedalCounts
               (buildUnifiedMedalData summer_1992 winter_1992) →
         t ≤ m)
    ∧ updateLegend (buildUnifiedMedalData summer_1992 winter_1992)
      = Legend (Whole m) (Whole ((3 * m + 2) / 4))
          (Whole ((m + 1) / 2)) (Whole ((m + 2) / 4))
    ∧ (m + 2) / 4 ≤ (m + 1) / 2 ≤ (3 * m + 2) / 4
    ∧ (3 * m + 2) / 4 ≤ m.
Proof.
  apply legend_ticks.
  - vm_compute. discriminate.
  - assert (collectMedalCounts
              (buildUnifiedMedalData summer_1992 winter_1992) = [108]) as ->
      by (vm_compute; reflexivity).
    intros t ->%list_elem_of_singleton. reflexivity.
Defined.

(** X17. When the table holds no positive total, [Math.max] of nothing is
    [-Infinity], and all four ticks of the legend are [-Infinity]. *)
Theorem legend_without_medals (medalData : UnifiedYearTable) :
  collectMedalCounts medalData = [] →
  updateLegend medalData
  = Legend MinusInfinity MinusInfinity MinusInfinity MinusInfinity.
Proof. intros Hempty. unfold updateLegend. by rewrite Hempty. Qed.

Lemma legend_without_medals_witness :
  updateLegend ∅
  = Legend MinusInfinity MinusInfinity MinusInfinity MinusInfinity.
Proof. apply legend_without_medals. vm_compute. reflexivity. Defined.
End legend_ticks.
